(** * Data-select queries of the dashboard backend

    A shallow embedding of
    [src/app/backend/resource/dataselect/dataselectquery.go]: the query
    structs, the package-level presets and the three constructors
    [NewMetricQuery], [NewDataSelectQuery] and [NewSortQuery].

    Go hands out the queries by pointer and the presets are shared
    objects, so the embedding keeps a store: a heap of objects addressed
    by position, slices as headers into backing arrays of that heap, and
    the constructors as computations that read and extend it. *)

From Stdlib Require Import ZArith.
From stdpp Require Import base option list strings.

Open Scope string_scope.
Open Scope list_scope.
Open Scope nat_scope.

(** ** Values *)

Abbreviation addr := nat.

(** A Go pointer [*T]: [nil] or the address of a heap object. *)
Inductive ptr (T : Type) : Type :=
| null
| ref (a : addr).
Arguments null {T}.
Arguments ref {T} a.

(** A Go slice [[]T]: the nil slice, or a header giving the backing
    array, the position of element 0 in it and the length. *)
Inductive slice (T : Type) : Type :=
| nil_slice
| slice_of (array : addr) (low : nat) (length : nat).
Arguments nil_slice {T}.
Arguments slice_of {T} array low length.

Definition len {T} (s : slice T) : nat :=
  match s with
  | nil_slice => 0
  | slice_of _ _ n => n
  end.

Definition is_nil {T} (s : slice T) : bool :=
  match s with
  | nil_slice => true
  | slice_of _ _ _ => false
  end.

(** ** The structs of the package *)

(** [type PropertyName string] and [type AggregationName string]. *)
Definition PropertyName := string.
Definition AggregationName := string.

(** Modelled from the spec: [metric.AggregationNames], declared in the
    metric package; the spec has it as "a list of aggregation-function
    names", and the package passes [nil] for it. *)
Definition AggregationNames := slice AggregationName.

Record MetricQuery : Type := {
  MetricNames : slice string;
  Aggregations : AggregationNames
}.

Record SortBy : Type := {
  Property : PropertyName;
  Ascending : bool
}.

Record SortQuery : Type := {
  SortByList : slice SortBy
}.

(** Modelled from the spec: [PaginationQuery], declared in a sibling file
    of the package; the spec has it as "{itemsPerPage, page (1-based)}". *)
Record PaginationQuery : Type := {
  ItemsPerPage : Z;
  Page : Z
}.

Module DataSelectQuery.
Record t : Type := {
  PaginationQuery : ptr PaginationQuery;
  SortQuery : ptr SortQuery;
  MetricQuery : ptr MetricQuery
}.
End DataSelectQuery.

(** ** The heap *)

Inductive object : Type :=
| StringArray (elems : list string)
| SortByArray (elems : list SortBy)
| MetricQueryObj (q : MetricQuery)
| SortQueryObj (q : SortQuery)
| PaginationQueryObj (q : PaginationQuery)
| DataSelectQueryObj (q : DataSelectQuery.t).

Abbreviation Heap := (list object).

(** The Go types that live in the heap, with their object tags. *)
Class Stored (T : Type) := {
  to_object : T → object;
  of_object : object → option T;
  of_to_object : ∀ v, of_object (to_object v) = Some v
}.

#[export] Instance strings_stored : Stored (list string) := {
  to_object := StringArray;
  of_object o := match o with StringArray l => Some l | _ => None end;
  of_to_object _ := eq_refl
}.

#[export] Instance sortbys_stored : Stored (list SortBy) := {
  to_object := SortByArray;
  of_object o := match o with SortByArray l => Some l | _ => None end;
  of_to_object _ := eq_refl
}.

#[export] Instance metricquery_stored : Stored MetricQuery := {
  to_object := MetricQueryObj;
  of_object o := match o with MetricQueryObj q => Some q | _ => None end;
  of_to_object _ := eq_refl
}.

#[export] Instance sortquery_stored : Stored SortQuery := {
  to_object := SortQueryObj;
  of_object o := match o with SortQueryObj q => Some q | _ => None end;
  of_to_object _ := eq_refl
}.

#[export] Instance paginationquery_stored : Stored PaginationQuery := {
  to_object := PaginationQueryObj;
  of_object o := match o with PaginationQueryObj q => Some q | _ => None end;
  of_to_object _ := eq_refl
}.

#[export] Instance dataselectquery_stored : Stored DataSelectQuery.t := {
  to_object := DataSelectQueryObj;
  of_object o := match o with DataSelectQueryObj q => Some q | _ => None end;
  of_to_object _ := eq_refl
}.

(** What a heap holds at an address, read at type [T]. *)
Definition load {T} `{Stored T} (h : Heap) (a : addr) : option T :=
  h !! a ≫= of_object.

(** What a pointer points to. *)
Definition deref {T} `{Stored T} (h : Heap) (p : ptr T) : option T :=
  match p with
  | null => None
  | ref a => load h a
  end.

(** The elements of a slice, in order; [None] for a header that does not
    lie inside an array of the heap. The nil slice has no elements. *)
Definition contents {T} `{Stored (list T)} (h : Heap) (s : slice T)
  : option (list T) :=
  match s with
  | nil_slice => Some []
  | slice_of a lo n =>
      elems ← load h a;
      if decide (lo + n ≤ length elems) then Some (take n (drop lo elems))
      else None
  end.

(** ** Computations over the heap

    [None] is a run that does not return: a run-time panic (an index out
    of range), a header or pointer that denotes no memory of the heap, or
    a loop that has used up its fuel. *)
Definition M (A : Type) : Type := Heap → option (A * Heap).

#[export] Instance M_ret : MRet M := λ A a h, Some (a, h).
#[export] Instance M_bind : MBind M := λ A B f m h,
  match m h with
  | Some (a, h') => f a h'
  | None => None
  end.

Definition panic {A} : M A := λ _, None.

(** Allocation takes the next free address. *)
Definition alloc {T} `{Stored T} (v : T) : M addr :=
  λ h, Some (length h, h ++ [to_object v]).

Definition read {T} `{Stored T} (a : addr) : M T :=
  λ h, match load h a with
       | Some v => Some (v, h)
       | None => None
       end.

(** [&T{...}] *)
Definition new {T} `{Stored T} (v : T) : M (ptr T) :=
  a ← alloc v; mret (ref a).

(** [[]T{x1, ..., xn}] *)
Definition slice_lit {T} `{Stored (list T)} (l : list T) : M (slice T) :=
  a ← alloc l; mret (slice_of a 0 (length l)).

(** [s[i]] *)
Definition index {T} `{Stored (list T)} (s : slice T) (i : nat) : M T :=
  match s with
  | nil_slice => panic
  | slice_of a lo n =>
      if i <? n then
        elems ← read a;
        match elems !! (lo + i) with
        | Some x => mret x
        | None => panic
        end
      else panic
  end.

(** [append(s, x)]. Go writes [x] into spare capacity of the backing
    array or moves the elements to a larger array; the result has the
    elements of [s] followed by [x] either way. The embedding always
    takes a new array: the package appends only to a slice that no one
    else holds. *)
Definition append {T} `{Stored (list T)} (s : slice T) (x : T) : M (slice T) :=
  λ h, match contents h s with
       | Some l => slice_lit (l ++ [x]) h
       | None => None
       end.

(** ** Constructors *)

Definition NewMetricQuery (metricNames : slice string)
    (aggregations : AggregationNames) : M (ptr MetricQuery) :=
  new {| MetricNames := metricNames; Aggregations := aggregations |}.

Definition NewDataSelectQuery (paginationQuery : ptr PaginationQuery)
    (sortQuery : ptr SortQuery) (graphQuery : ptr MetricQuery)
  : M (ptr DataSelectQuery.t) :=
  new {| DataSelectQuery.PaginationQuery := paginationQuery;
         DataSelectQuery.SortQuery := sortQuery;
         DataSelectQuery.MetricQuery := graphQuery |}.

(** ** Package-level variables *)

Record Globals : Type := {
  NoMetrics : ptr MetricQuery;
  StandardMetrics : ptr MetricQuery;
  NoSort : ptr SortQuery;
  NoDataSelect : ptr DataSelectQuery.t;
  StdMetricsDataSelect : ptr DataSelectQuery.t;
  DefaultDataSelect : ptr DataSelectQuery.t;
  DefaultDataSelectWithMetrics : ptr DataSelectQuery.t
}.

(** What the package takes from elsewhere: the two pagination presets of
    the sibling file, the metric names of package common, and from
    package metric the name of the sum aggregation and the aggregation
    preset. *)
Record Imports : Type := {
  NoPagination : ptr PaginationQuery;
  DefaultPagination : ptr PaginationQuery;
  CpuUsage : string;
  MemoryUsage : string;
  SumAggregation : AggregationName;
  OnlySumAggregation : AggregationNames
}.

(** The initialisers of the package variables, in declaration order. *)
Definition package_init (env : Imports) : M Globals :=
  noMetrics ← NewMetricQuery nil_slice nil_slice;
  names ← slice_lit [CpuUsage env; MemoryUsage env];
  standardMetrics ← NewMetricQuery names (OnlySumAggregation env);
  empty ← slice_lit [];
  noSort ← new {| SortByList := empty |};
  noDataSelect ← NewDataSelectQuery (NoPagination env) noSort noMetrics;
  stdMetricsDataSelect ←
    NewDataSelectQuery (NoPagination env) noSort standardMetrics;
  defaultDataSelect ←
    NewDataSelectQuery (DefaultPagination env) noSort noMetrics;
  defaultDataSelectWithMetrics ←
    NewDataSelectQuery (DefaultPagination env) noSort standardMetrics;
  mret {| NoMetrics := noMetrics;
          StandardMetrics := standardMetrics;
          NoSort := noSort;
          NoDataSelect := noDataSelect;
          StdMetricsDataSelect := stdMetricsDataSelect;
          DefaultDataSelect := defaultDataSelect;
          DefaultDataSelectWithMetrics := defaultDataSelectWithMetrics |}.

(** ** NewSortQuery *)

(** How the loop of [NewSortQuery] is left: through the [return NoSort]
    of its body, or past its condition with the list built so far. *)
Inductive loop_exit : Type :=
| return_NoSort
| loop_done (sortByList : slice SortBy).

(** [for i := 0; i+1 < len(sortByListRaw); i += 2 { ... }], started at
    [i] with [sortByList]; [fuel] bounds the number of iterations. The
    index stays below the length of the slice, so it is a [nat]. *)
Fixpoint NewSortQuery_loop (fuel : nat) (sortByListRaw : slice string)
    (i : nat) (sortByList : slice SortBy) : M loop_exit :=
  if i + 1 <? len sortByListRaw then
    match fuel with
    | O => panic
    | S fuel =>
        orderOption ← index sortByListRaw i;
        match
          (if (orderOption =? "a")%string then Some true
           else if (orderOption =? "d")%string then Some false
           else None)
        with
        | None => mret return_NoSort
        | Some ascending =>
            propertyName ← index sortByListRaw (i + 1);
            let sortBy :=
              {| Property := propertyName; Ascending := ascending |} in
            sortByList ← append sortByList sortBy;
            NewSortQuery_loop fuel sortByListRaw (i + 2) sortByList
        end
    end
  else mret (loop_done sortByList).

Definition NewSortQuery (g : Globals) (sortByListRaw : slice string)
  : M (ptr SortQuery) :=
  if is_nil sortByListRaw || (len sortByListRaw mod 2 =? 1) then
    mret (NoSort g)
  else
    sortByList ← slice_lit [];
    exit ← NewSortQuery_loop (len sortByListRaw) sortByListRaw 0 sortByList;
    match exit with
    | return_NoSort => mret (NoSort g)
    | loop_done sortByList => new {| SortByList := sortByList |}
    end.

(** ** Reading results back from the heap *)

(** The entries of the [SortByList] of the query a pointer points to. *)
Definition sort_entries (h : Heap) (p : ptr SortQuery) : option (list SortBy) :=
  q ← deref h p; contents h (SortByList q).

(** ** The sort tokens as pairs

    What the loop computes, told on the token list: the pairs in order,
    or nothing when a direction token is neither "a" nor "d". A single
    token left over at the end is not looked at. *)
Definition direction (orderOption : string) : option bool :=
  if (orderOption =? "a")%string then Some true
  else if (orderOption =? "d")%string then Some false
  else None.

Fixpoint parse_pairs (tokens : list string) : option (list SortBy) :=
  match tokens with
  | orderOption :: propertyName :: rest =>
      match direction orderOption with
      | Some ascending =>
          match parse_pairs rest with
          | Some l =>
              Some ({| Property := propertyName; Ascending := ascending |} :: l)
          | None => None
          end
      | None => None
      end
  | _ => Some []
  end.

(** The tokens that spell a list of sort criteria: for each criterion its
    direction code, then its property name. *)
Definition direction_token (ascending : bool) : string :=
  if ascending then "a" else "d".

Definition tokens_of (l : list SortBy) : list string :=
  l ≫= λ sortBy, [direction_token (Ascending sortBy); Property sortBy].

(** ** Heaps the package runs in *)

(** The package variables have been initialised and the heap has only
    grown since: nothing in the package assigns through a pointer. *)
Definition initialised (env : Imports) (g : Globals) (h : Heap) : Prop :=
  ∃ h0 h1 : Heap, package_init env h0 = Some (g, h1) ∧ h1 `prefix_of` h.

(** Modelled from the spec: [metric.OnlySumAggregation], declared in
    package metric; the spec has the aggregations of a query "defaulting
    to sum" and names the preset "only-sum": the sum aggregation alone. *)
Definition metric_initialised (env : Imports) (h : Heap) : Prop :=
  contents h (OnlySumAggregation env) = Some [SumAggregation env].

(** ** Structural equality across heaps

    Two slices are equal in structure when both are nil or neither is and
    they hold the same elements; two pointers when both are nil or they
    point to objects that are equal in structure. The two sides may live
    in different heaps. *)
Definition slice_eq {T} `{Stored (list T)}
    (h1 : Heap) (s1 : slice T) (h2 : Heap) (s2 : slice T) : Prop :=
  is_nil s1 = is_nil s2 ∧
  ∃ l, contents h1 s1 = Some l ∧ contents h2 s2 = Some l.

Definition ptr_eq {T} `{Stored T} (R : Heap → T → Heap → T → Prop)
    (h1 : Heap) (p1 : ptr T) (h2 : Heap) (p2 : ptr T) : Prop :=
  (p1 = null ∧ p2 = null) ∨
  ∃ v1 v2, deref h1 p1 = Some v1 ∧ deref h2 p2 = Some v2 ∧ R h1 v1 h2 v2.

Definition MetricQuery_eq (h1 : Heap) (q1 : MetricQuery)
    (h2 : Heap) (q2 : MetricQuery) : Prop :=
  slice_eq h1 (MetricNames q1) h2 (MetricNames q2) ∧
  slice_eq h1 (Aggregations q1) h2 (Aggregations q2).

Definition SortQuery_eq (h1 : Heap) (q1 : SortQuery)
    (h2 : Heap) (q2 : SortQuery) : Prop :=
  slice_eq h1 (SortByList q1) h2 (SortByList q2).

Definition PaginationQuery_eq (h1 : Heap) (q1 : PaginationQuery)
    (h2 : Heap) (q2 : PaginationQuery) : Prop :=
  q1 = q2.

Definition DataSelectQuery_eq (h1 : Heap) (q1 : DataSelectQuery.t)
    (h2 : Heap) (q2 : DataSelectQuery.t) : Prop :=
  ptr_eq PaginationQuery_eq h1 (DataSelectQuery.PaginationQuery q1)
                            h2 (DataSelectQuery.PaginationQuery q2) ∧
  ptr_eq SortQuery_eq h1 (DataSelectQuery.SortQuery q1)
                      h2 (DataSelectQuery.SortQuery q2) ∧
  ptr_eq MetricQuery_eq h1 (DataSelectQuery.MetricQuery q1)
                        h2 (DataSelectQuery.MetricQuery q2).

(** ** The stages of the selection engine

    The engine that runs a query lives in other files of the package;
    its stages follow sections 4.1 to 4.4 of the specification. *)

(** [sequence[low:high]]: a run-time panic when the bounds are out of
    range. *)
Definition slice_range {A} (sequence : list A) (low high : Z)
  : option (list A) :=
  if decide (0 ≤ low ∧ low ≤ high ∧ high ≤ Z.of_nat (length sequence))%Z
  then Some (take (Z.to_nat (high - low)) (drop (Z.to_nat low) sequence))
  else None.

Record SelectedPage (A : Type) : Type := {
  items : list A;
  totalItems : Z
}.
Arguments items {A} _.
Arguments totalItems {A} _.

(** Modelled from the spec: the pagination stage (section 4.3).
    "totalItems = len(sequence) is computed before slicing. If
    itemsPerPage == 0, return the full sequence unsliced. Otherwise
    compute startIndex = (page-1) * itemsPerPage; if startIndex >=
    totalItems, return an empty slice with totalItems still reflecting
    the true count. endIndex = min(startIndex + itemsPerPage, totalItems).
    Returned slice = sequence[startIndex:endIndex]." The spec gives no
    width for the integers; they are unbounded here. *)
Definition paginate {A} (sequence : list A) (pQuery : PaginationQuery)
  : option (SelectedPage A) :=
  let totalItems := Z.of_nat (length sequence) in
  if (ItemsPerPage pQuery =? 0)%Z then
    Some {| items := sequence; totalItems := totalItems |}
  else
    let startIndex := ((Page pQuery - 1) * ItemsPerPage pQuery)%Z in
    if (startIndex >=? totalItems)%Z then
      Some {| items := []; totalItems := totalItems |}
    else
      let endIndex := Z.min (startIndex + ItemsPerPage pQuery) totalItems in
      selected ← slice_range sequence startIndex endIndex;
      Some {| items := selected; totalItems := totalItems |}.

Section SortStage.
Context {Item Value : Type}.

(** The property extraction contract (section 4.1): the value bound to
    a property identifier, or not found. *)
Variable propertyValue : Item → PropertyName → option Value.
(** The comparator of the values. *)
Variable compareValue : Value → Value → comparison.

(** Modelled from the spec: one sort criterion. "each entry's
    comparison result is negated when ascending is false"; "Not-found
    values sort after all found values regardless of direction". *)
Definition compare_by (sortBy : SortBy) (a b : Item) : comparison :=
  match propertyValue a (Property sortBy), propertyValue b (Property sortBy) with
  | Some va, Some vb =>
      if Ascending sortBy then compareValue va vb
      else CompOpp (compareValue va vb)
  | Some _, None => Lt
  | None, Some _ => Gt
  | None, None => Eq
  end.

(** Modelled from the spec: the composite comparator "evaluates SortBy
    entries in list order — first entry is primary key, subsequent
    entries break ties". *)
Fixpoint compare_items (sortByList : list SortBy) (a b : Item) : comparison :=
  match sortByList with
  | [] => Eq
  | sortBy :: rest =>
      match compare_by sortBy a b with
      | Eq => compare_items rest a b
      | c => c
      end
  end.

Definition less (sortByList : list SortBy) (a b : Item) : bool :=
  match compare_items sortByList a b with
  | Lt => true
  | _ => false
  end.

(** Modelled from the spec: the sort stage (section 4.2), "a single
    stable sort pass using a composite comparator". The spec names no
    algorithm; this is insertion sort, each item put in front of the
    first item after it that is not less than it. *)
Fixpoint insert_item (sortByList : list SortBy) (x : Item)
    (sorted : list Item) : list Item :=
  match sorted with
  | [] => [x]
  | y :: rest =>
      if less sortByList y x then y :: insert_item sortByList x rest
      else x :: y :: rest
  end.

Definition sort_stage (sortByList : list SortBy) (sequence : list Item)
  : list Item :=
  foldr (insert_item sortByList) [] sequence.

(** Two items compare equal under every criterion of the list. *)
Definition equal_under (sortByList : list SortBy) (a b : Item) : Prop :=
  Forall (λ sortBy, compare_by sortBy a b = Eq) sortByList.
End SortStage.

(** An occurrence of [a] comes before an occurrence of [b] in [l]. *)
Definition before {A} (a b : A) (l : list A) : Prop :=
  ∃ i j : nat, i < j ∧ l !! i = Some a ∧ l !! j = Some b.

Section MetricStage.
Context {Item Raw Series : Type}.

(** The metrics collaborator, "fetchSeries(items, metricNames)",
    fallible, and the registry of aggregation functions: the series of
    one metric reduced over the items. *)
Variable fetchSeries : list Item → list string → option Raw.
Variable aggregate : AggregationName → Raw → string → Series.
(** The default aggregation. *)
Variable sum : AggregationName.

Inductive metrics_outcome : Type :=
| Metrics (m : list (string * list (AggregationName * Series)))
| MetricsUnavailable.

Record metric_stage_result : Type := {
  fetches : list (list Item * list string);
  metrics : metrics_outcome
}.

(** Modelled from the spec: the metric query stage (section 4.4). "if
    metricNames is empty, short-circuits to an empty result with no
    external call"; otherwise one fetch, each metric reduced by each
    requested aggregation ("defaulting to sum when unspecified"), and
    "a metrics-unavailable condition" when the fetch fails. The result
    lists the fetches made. *)
Definition metric_stage (selected : list Item) (metricNames : list string)
    (aggregations : list AggregationName) : metric_stage_result :=
  match metricNames with
  | [] => {| fetches := []; metrics := Metrics [] |}
  | _ =>
      let aggregations :=
        match aggregations with [] => [sum] | _ => aggregations end in
      {| fetches := [(selected, metricNames)];
         metrics :=
           match fetchSeries selected metricNames with
           | Some raw =>
               Metrics
                 ((λ name,
                    (name, (λ a, (a, aggregate a raw name)) <$> aggregations))
                  <$> metricNames)
           | None => MetricsUnavailable
           end |}
  end.

(** The stage run on the query a pointer points to. *)
Definition run_metric_query (h : Heap) (p : ptr MetricQuery)
    (selected : list Item) : option metric_stage_result :=
  q ← deref h p;
  metricNames ← contents h (MetricNames q);
  aggregations ← contents h (Aggregations q);
  Some (metric_stage selected metricNames aggregations).
End MetricStage.

(** ** A heap to run the package in

    The pagination presets and the only-sum preset are there before the
    package variables are initialised; a token array comes after. *)
Definition example_env : Imports :=
  {| NoPagination := ref 0;
     DefaultPagination := ref 1;
     CpuUsage := "cpu/usage_rate";
     MemoryUsage := "memory/usage";
     SumAggregation := "sum";
     OnlySumAggregation := slice_of 2 0 1 |}.

Definition example_boot : Heap :=
  [ PaginationQueryObj {| ItemsPerPage := 0; Page := 1 |};
    PaginationQueryObj {| ItemsPerPage := 10; Page := 1 |};
    StringArray ["sum"] ].

Definition example_globals : Globals :=
  {| NoMetrics := ref 3;
     StandardMetrics := ref 5;
     NoSort := ref 7;
     NoDataSelect := ref 8;
     StdMetricsDataSelect := ref 9;
     DefaultDataSelect := ref 10;
     DefaultDataSelectWithMetrics := ref 11 |}.

Definition example_heap (tokens : list string) : Heap :=
  match package_init example_env example_boot with
  | Some (_, h) => h ++ [StringArray tokens]
  | None => []
  end.

Definition example_raw (tokens : list string) : slice string :=
  slice_of 12 0 (length tokens).

(** * Lemmas on the heap *)

Section HeapLemmas.
Context {T : Type} `{Stored T}.

Lemma load_prefix (h h' : Heap) (a : addr) (v : T) :
  h `prefix_of` h' → load h a = Some v → load h' a = Some v.
Proof.
  unfold load. intros Hp Hl.
  destruct (h !! a) as [o|] eqn:Ho; [|discriminate].
  by rewrite (prefix_lookup_Some _ _ _ _ Ho Hp).
Qed.

Lemma deref_prefix (h h' : Heap) (p : ptr T) (v : T) :
  h `prefix_of` h' → deref h p = Some v → deref h' p = Some v.
Proof. destruct p; simpl; [done|]. apply load_prefix. Qed.

Lemma load_fresh (h : Heap) (v : T) (k : Heap) :
  load (h ++ to_object v :: k) (length h) = Some v.
Proof.
  unfold load. rewrite list_lookup_middle by done. simpl.
  apply of_to_object.
Qed.

Lemma new_spec (h : Heap) (v : T) :
  new v h = Some (ref (length h), h ++ [to_object v]).
Proof. reflexivity. Qed.

Lemma deref_lt (h : Heap) (a : addr) (v : T) :
  deref h (ref a) = Some v → a < length h.
Proof.
  simpl. unfold load. intros Hl. apply lookup_lt_is_Some.
  destruct (h !! a); [eauto | discriminate].
Qed.
End HeapLemmas.

Section SliceLemmas.
Context {T : Type} `{Stored (list T)}.

Lemma contents_prefix (h h' : Heap) (s : slice T) (l : list T) :
  h `prefix_of` h' → contents h s = Some l → contents h' s = Some l.
Proof.
  destruct s as [|a lo n]; simpl; [done|]. intros Hp Hc.
  destruct (load h a) as [elems|] eqn:Hl; [|discriminate].
  by rewrite (load_prefix _ _ _ _ Hp Hl).
Qed.

Lemma contents_length (h : Heap) (s : slice T) (l : list T) :
  contents h s = Some l → length l = len s.
Proof.
  destruct s as [|a lo n]; simpl.
  - by intros [= <-].
  - destruct (load h a) as [elems|]; simpl; [|discriminate].
    case_decide; [|discriminate]. intros [= <-].
    rewrite length_take, length_drop. lia.
Qed.

Lemma slice_lit_spec (h : Heap) (l : list T) :
  slice_lit l h = Some (slice_of (length h) 0 (length l), h ++ [to_object l]).
Proof. reflexivity. Qed.

Lemma contents_fresh (h k : Heap) (l : list T) :
  contents (h ++ to_object l :: k) (slice_of (length h) 0 (length l)) = Some l.
Proof.
  simpl. rewrite load_fresh. simpl.
  rewrite decide_True by done. by rewrite drop_0, firstn_all.
Qed.

Lemma index_spec (h : Heap) (s : slice T) (l : list T) (i : nat) (x : T) :
  contents h s = Some l → l !! i = Some x → index s i h = Some (x, h).
Proof.
  intros Hc Hi. pose proof (contents_length _ _ _ Hc) as Hlen.
  pose proof (lookup_lt_Some _ _ _ Hi) as Hlt.
  destruct s as [|a lo n]; simpl in *; [lia|].
  destruct (Nat.ltb_spec i n); [|lia].
  unfold mbind, M_bind, read.
  destruct (load h a) as [elems|]; simpl in *; [|discriminate].
  case_decide; [|discriminate]. injection Hc as <-.
  rewrite lookup_take_lt, lookup_drop in Hi by done.
  by rewrite Hi.
Qed.

Lemma append_spec (h : Heap) (s : slice T) (l : list T) (x : T) :
  contents h s = Some l →
  append s x h
  = Some (slice_of (length h) 0 (length (l ++ [x])),
          h ++ [to_object (l ++ [x])]).
Proof. unfold append. by intros ->. Qed.
End SliceLemmas.

(** * The loop of NewSortQuery *)

Lemma parse_pairs_short (tokens : list string) :
  length tokens ≤ 1 → parse_pairs tokens = Some [].
Proof. destruct tokens as [|? [|? ?]]; simpl; [done | done | lia]. Qed.

Lemma drop_two (tokens : list string) (i : nat) :
  i + 1 < length tokens →
  ∃ orderOption propertyName,
    tokens !! i = Some orderOption ∧ tokens !! (i + 1) = Some propertyName ∧
    drop i tokens = orderOption :: propertyName :: drop (i + 2) tokens.
Proof.
  intros Hlt.
  destruct (lookup_lt_is_Some_2 tokens i) as [d Hd]; [lia|].
  destruct (lookup_lt_is_Some_2 tokens (i + 1)) as [p Hp]; [lia|].
  exists d, p. split; [done|]. split; [done|].
  rewrite (drop_S _ _ _ Hd). replace (S i) with (i + 1) by lia.
  rewrite (drop_S _ _ _ Hp). by replace (S (i + 1)) with (i + 2) by lia.
Qed.

(** One turn of the loop. *)
Lemma NewSortQuery_loop_step (fuel : nat) (raw : slice string)
    (tokens : list string) (i : nat) (acc : slice SortBy)
    (entries : list SortBy) (h : Heap) (orderOption propertyName : string) :
  contents h raw = Some tokens →
  contents h acc = Some entries →
  tokens !! i = Some orderOption →
  tokens !! (i + 1) = Some propertyName →
  NewSortQuery_loop (S fuel) raw i acc h
  = match direction orderOption with
    | Some ascending =>
        let l := entries ++ [{| Property := propertyName; Ascending := ascending |}] in
        NewSortQuery_loop fuel raw (i + 2) (slice_of (length h) 0 (length l))
          (h ++ [to_object l])
    | None => Some (return_NoSort, h)
    end.
Proof.
  intros Hraw Hacc Hd Hp. pose proof (contents_length _ _ _ Hraw) as Hlen.
  pose proof (lookup_lt_Some _ _ _ Hp) as Hlt. simpl.
  destruct (Nat.ltb_spec (i + 1) (len raw)); [|lia].
  unfold mbind at 1, M_bind at 1. rewrite (index_spec _ _ _ _ _ Hraw Hd).
  fold (direction orderOption). destruct (direction orderOption); [|done].
  unfold mbind at 1, M_bind at 1. rewrite (index_spec _ _ _ _ _ Hraw Hp).
  unfold mbind at 1, M_bind at 1. by rewrite (append_spec _ _ _ _ Hacc).
Qed.

Lemma NewSortQuery_loop_exit (fuel : nat) (raw : slice string) (i : nat)
    (acc : slice SortBy) (h : Heap) :
  len raw ≤ i + 1 →
  NewSortQuery_loop fuel raw i acc h = Some (loop_done acc, h).
Proof.
  intros Hge. destruct fuel; simpl;
    by destruct (Nat.ltb_spec (i + 1) (len raw)); [lia|].
Qed.

(** With fuel for the pairs that are left, the loop ends: with the pairs
    of the remaining tokens appended to the list it was started with, or
    through [return NoSort] at the first direction that is no direction.
    It only adds objects to the heap. *)
Lemma NewSortQuery_loop_spec (fuel : nat) :
  ∀ (raw : slice string) (tokens : list string) (i : nat)
    (acc : slice SortBy) (entries : list SortBy) (h : Heap),
    contents h raw = Some tokens →
    contents h acc = Some entries →
    length tokens ≤ i + 2 * fuel →
    ∃ k : Heap,
      match parse_pairs (drop i tokens) with
      | Some l =>
          ∃ s, NewSortQuery_loop fuel raw i acc h = Some (loop_done s, h ++ k) ∧
               contents (h ++ k) s = Some (entries ++ l) ∧
               (is_nil acc = false → is_nil s = false)
      | None => NewSortQuery_loop fuel raw i acc h = Some (return_NoSort, h ++ k)
      end.
Proof.
  induction fuel as [|fuel IH]; intros raw tokens i acc entries h Hraw Hacc Hfuel;
    pose proof (contents_length _ _ _ Hraw) as Hlen.
  - exists []. rewrite parse_pairs_short by (rewrite length_drop; lia).
    exists acc. rewrite NewSortQuery_loop_exit by lia. by rewrite !app_nil_r.
  - destruct (decide (i + 1 < length tokens)) as [Hlt|Hge].
    + destruct (drop_two tokens i) as (d & p & Hd & Hp & ->); [lia|].
      rewrite (NewSortQuery_loop_step _ _ _ _ _ _ _ _ _ Hraw Hacc Hd Hp).
      simpl. destruct (direction d) as [ascending|].
      * set (sortBy := {| Property := p; Ascending := ascending |}).
        set (h1 := h ++ [to_object (entries ++ [sortBy])]).
        assert (h `prefix_of` h1) as Hpre by (by apply prefix_app_r).
        destruct (IH raw tokens (i + 2)
                    (slice_of (length h) 0 (length (entries ++ [sortBy])))
                    (entries ++ [sortBy]) h1) as [k Hk].
        { by apply (contents_prefix h). }
        { apply contents_fresh. }
        { lia. }
        exists (to_object (entries ++ [sortBy]) :: k).
        replace (h ++ to_object (entries ++ [sortBy]) :: k) with (h1 ++ k)
          by (unfold h1; by rewrite <- app_assoc).
        destruct (parse_pairs (drop (i + 2) tokens)) as [l|]; [|done].
        destruct Hk as (s & Hrun & Hs & Hnil). exists s.
        rewrite <- app_assoc in Hs. split; [done|]. split; [done|].
        intros _. by apply Hnil.
      * exists []. by rewrite app_nil_r.
    + exists []. rewrite parse_pairs_short by (rewrite length_drop; lia).
      exists acc. rewrite NewSortQuery_loop_exit by lia. by rewrite !app_nil_r.
Qed.

(** What [NewSortQuery] does at its guard and past it. *)
Lemma NewSortQuery_guard (g : Globals) (raw : slice string) (h : Heap) :
  is_nil raw = true ∨ len raw mod 2 = 1 →
  NewSortQuery g raw h = Some (NoSort g, h).
Proof.
  intros Hguard. unfold NewSortQuery.
  destruct Hguard as [-> | ->]; [done|]. by rewrite orb_true_r.
Qed.

Lemma NewSortQuery_run (g : Globals) (raw : slice string)
    (tokens : list string) (h : Heap) :
  contents h raw = Some tokens →
  is_nil raw = false →
  length tokens mod 2 = 0 →
  match parse_pairs tokens with
  | Some l =>
      ∃ (a : addr) (h' : Heap) (q : SortQuery),
        NewSortQuery g raw h = Some (ref a, h') ∧
        h `prefix_of` h' ∧ length h ≤ a ∧
        deref h' (ref a) = Some q ∧
        is_nil (SortByList q) = false ∧
        contents h' (SortByList q) = Some l
  | None =>
      ∃ h' : Heap, NewSortQuery g raw h = Some (NoSort g, h') ∧ h `prefix_of` h'
  end.
Proof.
  intros Hraw Hnil Heven. pose proof (contents_length _ _ _ Hraw) as Hlen.
  unfold NewSortQuery. rewrite Hnil, <- Hlen, Heven. simpl.
  unfold mbind, M_bind. rewrite slice_lit_spec.
  set (h0 := h ++ [to_object (@nil SortBy)]).
  assert (h `prefix_of` h0) as Hpre by (by apply prefix_app_r).
  destruct (NewSortQuery_loop_spec (length tokens) raw tokens 0
              (slice_of (length h) 0 (length (@nil SortBy))) [] h0)
    as [k Hk].
  { by apply (contents_prefix h). }
  { apply contents_fresh. }
  { lia. }
  rewrite drop_0 in Hk.
  destruct (parse_pairs tokens) as [l|].
  - destruct Hk as (s & Hrun & Hs & Hnil').
    exists (length (h0 ++ k)), ((h0 ++ k) ++ [to_object {| SortByList := s |}]),
      {| SortByList := s |}.
    rewrite Hrun, new_spec. split; [done|]. split.
    { etrans; [exact Hpre|]. rewrite <- app_assoc. by apply prefix_app_r. }
    split.
    { unfold h0. rewrite !length_app. lia. }
    split; [apply (load_fresh (T:=SortQuery))|].
    split; [by apply Hnil'|].
    simpl. apply (contents_prefix (h0 ++ k)); [by apply prefix_app_r | done].
  - exists (h0 ++ k). rewrite Hk. split; [done|].
    etrans; [exact Hpre|]. by apply prefix_app_r.
Qed.

(** * The pairs of a token list *)

Lemma pairs_ind (P : list string → Prop) :
  P [] → (∀ x, P [x]) → (∀ x y l, P l → P (x :: y :: l)) → ∀ l, P l.
Proof.
  intros Hnil Hone Hstep.
  assert (∀ l, P l ∧ ∀ x, P (x :: l)) as Hboth; [|intros l; apply Hboth].
  induction l as [|y l [IH1 IH2]]; split; auto.
Qed.

Lemma direction_a (orderOption : string) :
  direction orderOption = Some true ↔ orderOption = "a".
Proof.
  unfold direction.
  destruct (String.eqb_spec orderOption "a") as [->|Ha]; [done|].
  destruct (String.eqb_spec orderOption "d"); split; congruence.
Qed.

Lemma direction_d (orderOption : string) :
  direction orderOption = Some false ↔ orderOption = "d".
Proof.
  unfold direction.
  destruct (String.eqb_spec orderOption "a") as [->|Ha]; [done|].
  destruct (String.eqb_spec orderOption "d"); split; congruence.
Qed.

Lemma direction_None (orderOption : string) :
  direction orderOption = None ↔ orderOption ≠ "a" ∧ orderOption ≠ "d".
Proof.
  unfold direction.
  destruct (String.eqb_spec orderOption "a") as [->|Ha].
  { split; [discriminate | by intros [? _]]. }
  destruct (String.eqb_spec orderOption "d") as [->|Hd].
  - split; [discriminate | by intros [_ ?]].
  - done.
Qed.

(** A direction that is no direction, at an even index with a token after
    it, leaves no pairs at all. *)
Lemma parse_pairs_bad (tokens : list string) :
  ∀ (k : nat) (orderOption : string),
    tokens !! (2 * k) = Some orderOption →
    2 * k + 1 < length tokens →
    direction orderOption = None →
    parse_pairs tokens = None.
Proof.
  induction tokens as [| x | x y l IH] using pairs_ind;
    intros k d Hd Hlt Hbad; cbn [length] in Hlt; [lia | lia |].
  cbn [parse_pairs]. destruct k as [|k].
  - injection Hd as ->. by rewrite Hbad.
  - replace (2 * S k) with (S (S (2 * k))) in Hd by lia. cbn in Hd.
    rewrite (IH k d Hd) by (done || lia). by destruct (direction x).
Qed.

(** The pairs there are: one per two tokens, the k-th from the tokens at
    2k and 2k+1. *)
Lemma parse_pairs_Some (tokens : list string) :
  ∀ l : list SortBy,
    parse_pairs tokens = Some l →
    length l = length tokens / 2 ∧
    ∀ k, k < length l →
      ∃ orderOption propertyName ascending,
        tokens !! (2 * k) = Some orderOption ∧
        tokens !! (2 * k + 1) = Some propertyName ∧
        direction orderOption = Some ascending ∧
        l !! k = Some {| Property := propertyName; Ascending := ascending |}.
Proof.
  induction tokens as [| x | x y rest IH] using pairs_ind; intros l Hl;
    cbn [parse_pairs] in Hl.
  - injection Hl as <-. split; [done|]. cbn [length]. lia.
  - injection Hl as <-. split; [done|]. cbn [length]. lia.
  - destruct (direction x) as [asc|] eqn:Hx; [|discriminate].
    destruct (parse_pairs rest) as [l'|]; [|discriminate].
    injection Hl as <-. destruct (IH l' eq_refl) as [Hlen Hk]. split.
    + cbn [length]. rewrite Hlen.
      change (S (S (length rest))) with (1 * 2 + length rest).
      rewrite Nat.div_add_l by done. lia.
    + intros [|k] Hlt.
      * exists x, y, asc. done.
      * destruct (Hk k) as (d & p & a & Hd & Hp & Ha & Hlk);
          [cbn [length] in Hlt; lia|].
        exists d, p, a.
        replace (2 * S k) with (S (S (2 * k))) by lia. done.
Qed.

(** With directions at every even index, the pairs are there. *)
Lemma parse_pairs_good (tokens : list string) :
  (∀ k orderOption, tokens !! (2 * k) = Some orderOption →
                    orderOption = "a" ∨ orderOption = "d") →
  is_Some (parse_pairs tokens).
Proof.
  induction tokens as [| x | x y rest IH] using pairs_ind; intros Hdir;
    cbn [parse_pairs]; [done | done |].
  destruct (direction x) as [asc|] eqn:Hx.
  - destruct IH as [l ->]; [|done].
    intros k d Hd. apply (Hdir (S k)).
    by replace (2 * S k) with (S (S (2 * k))) by lia.
  - apply direction_None in Hx as [Ha Hd]. by destruct (Hdir 0 x eq_refl).
Qed.

Lemma parse_pairs_tokens_of (l : list SortBy) :
  parse_pairs (tokens_of l) = Some l.
Proof.
  induction l as [|[p asc] l IH]; [done|].
  change (tokens_of ({| Property := p; Ascending := asc |} :: l))
    with (direction_token asc :: p :: tokens_of l).
  simpl. rewrite IH. by destruct asc.
Qed.

Lemma tokens_of_length (l : list SortBy) :
  length (tokens_of l) = 2 * length l.
Proof.
  induction l as [|sortBy l IH]; [done|].
  change (tokens_of (sortBy :: l))
    with (direction_token (Ascending sortBy) :: Property sortBy :: tokens_of l).
  simpl. lia.
Qed.

(** * The package after initialisation *)

(** The initialisers run on every heap; they add nine objects. *)
Lemma package_init_spec (env : Imports) (h0 : Heap) :
  let n := length h0 in
  let g := {| NoMetrics := ref n;
              StandardMetrics := ref (n + 2);
              NoSort := ref (n + 4);
              NoDataSelect := ref (n + 5);
              StdMetricsDataSelect := ref (n + 6);
              DefaultDataSelect := ref (n + 7);
              DefaultDataSelectWithMetrics := ref (n + 8) |} in
  package_init env h0
  = Some (g,
      h0 ++
      [ MetricQueryObj {| MetricNames := nil_slice; Aggregations := nil_slice |};
        StringArray [CpuUsage env; MemoryUsage env];
        MetricQueryObj {| MetricNames := slice_of (n + 1) 0 2;
                          Aggregations := OnlySumAggregation env |};
        SortByArray [];
        SortQueryObj {| SortByList := slice_of (n + 3) 0 0 |};
        DataSelectQueryObj
          {| DataSelectQuery.PaginationQuery := NoPagination env;
             DataSelectQuery.SortQuery := NoSort g;
             DataSelectQuery.MetricQuery := NoMetrics g |};
        DataSelectQueryObj
          {| DataSelectQuery.PaginationQuery := NoPagination env;
             DataSelectQuery.SortQuery := NoSort g;
             DataSelectQuery.MetricQuery := StandardMetrics g |};
        DataSelectQueryObj
          {| DataSelectQuery.PaginationQuery := DefaultPagination env;
             DataSelectQuery.SortQuery := NoSort g;
             DataSelectQuery.MetricQuery := NoMetrics g |};
        DataSelectQueryObj
          {| DataSelectQuery.PaginationQuery := DefaultPagination env;
             DataSelectQuery.SortQuery := NoSort g;
             DataSelectQuery.MetricQuery := StandardMetrics g |} ]).
Proof.
  intros n g. subst g n.
  unfold package_init, NewMetricQuery, NewDataSelectQuery, new, slice_lit,
    alloc, mbind, M_bind, mret, M_ret.
  cbn [to_object strings_stored sortbys_stored metricquery_stored
       sortquery_stored dataselectquery_stored NoSort NoMetrics StandardMetrics].
  rewrite !length_app. cbn [length]. rewrite <- !app_assoc. cbn [app].
  rewrite <- !Nat.add_assoc. reflexivity.
Qed.

Lemma direction_Some (orderOption : string) (ascending : bool) :
  direction orderOption = Some ascending →
  ascending = (orderOption =? "a")%string.
Proof.
  unfold direction. destruct (orderOption =? "a")%string; [congruence|].
  destruct (orderOption =? "d")%string; congruence.
Qed.

Lemma load_app_plus {T} `{Stored T} (h k : Heap) (i : nat) :
  load (h ++ k) (length h + i) = k !! i ≫= of_object.
Proof.
  unfold load. rewrite lookup_app_r by lia.
  by replace (length h + i - length h) with i by lia.
Qed.

Lemma load_app_0 {T} `{Stored T} (h k : Heap) :
  load (h ++ k) (length h) = k !! 0 ≫= of_object.
Proof. rewrite <- (load_app_plus h k 0). by rewrite Nat.add_0_r. Qed.

(** After initialisation [NoSort] points to an object of the heap, a
    query whose list is not nil and has no entries. *)
Lemma initialised_NoSort (env : Imports) (g : Globals) (h : Heap) :
  initialised env g h →
  ∃ (a : addr) (q : SortQuery),
    NoSort g = ref a ∧ a < length h ∧ deref h (NoSort g) = Some q ∧
    is_nil (SortByList q) = false ∧ contents h (SortByList q) = Some [].
Proof.
  intros (h0 & h1 & Hinit & Hpre). rewrite package_init_spec in Hinit.
  injection Hinit as <- <-. cbn [NoSort].
  exists (length h0 + 4), {| SortByList := slice_of (length h0 + 3) 0 0 |}.
  split; [done|].
  assert (deref (T:=SortQuery) h (ref (length h0 + 4))
          = Some {| SortByList := slice_of (length h0 + 3) 0 0 |}) as Hq.
  { eapply deref_prefix; [exact Hpre|]. simpl. by rewrite load_app_plus. }
  split; [by apply (deref_lt _ _ _ Hq)|]. split; [done|]. split; [done|].
  eapply contents_prefix; [exact Hpre|].
  cbn [SortByList contents]. by rewrite load_app_plus.
Qed.

Lemma sort_entries_intro (h : Heap) (p : ptr SortQuery) (q : SortQuery)
    (l : list SortBy) :
  deref h p = Some q → contents h (SortByList q) = Some l →
  sort_entries h p = Some l.
Proof. unfold sort_entries. intros -> Hc. simpl. exact Hc. Qed.

Lemma initialised_NoSort_entries (env : Imports) (g : Globals) (h : Heap) :
  initialised env g h → sort_entries h (NoSort g) = Some [].
Proof.
  intros Hinit.
  destruct (initialised_NoSort _ _ _ Hinit) as (a & q & _ & _ & Hq & _ & Hc).
  by apply (sort_entries_intro _ _ q).
Qed.

Lemma initialised_prefix (env : Imports) (g : Globals) (h h' : Heap) :
  initialised env g h → h `prefix_of` h' → initialised env g h'.
Proof.
  intros (h0 & h1 & Hinit & Hpre) Hpre'. exists h0, h1.
  split; [done|]. by etrans.
Qed.

(** * The sort-token parser *)

(** Runs on the example heap: the entries of the query returned. *)
Example NewSortQuery_name_age :
  let tokens := ["a"; "name"; "d"; "age"] in
  NewSortQuery example_globals (example_raw tokens) (example_heap tokens)
    ≫= (λ '(p, h'), sort_entries h' p)
  = Some [ {| Property := "name"; Ascending := true |};
           {| Property := "age"; Ascending := false |} ].
Proof. reflexivity. Qed.

Example NewSortQuery_odd :
  let tokens := ["a"; "name"; "d"] in
  fst <$> NewSortQuery example_globals (example_raw tokens) (example_heap tokens)
  = Some (NoSort example_globals).
Proof. reflexivity. Qed.

Example NewSortQuery_late_bad_direction :
  let tokens := ["a"; "name"; "asc"; "age"] in
  fst <$> NewSortQuery example_globals (example_raw tokens) (example_heap tokens)
  = Some (NoSort example_globals).
Proof. reflexivity. Qed.

Example NewSortQuery_empty :
  fst <$> NewSortQuery example_globals (example_raw []) (example_heap [])
  = Some (ref 14) ∧
  NoSort example_globals = ref 7.
Proof. split; reflexivity. Qed.


(** C1. For a token list that is not nil, of even length, with "a" or
    "d" at every even index, [NewSortQuery] returns a query with half as
    many entries as there are tokens; entry k has the token at 2k+1 as
    its property and is ascending exactly when the token at 2k is "a",
    so the entries keep the order of the pairs. The tokens
    "a","name","d","age" give (name, ascending) then (age, descending). *)
Theorem NewSortQuery_pairs (g : Globals) (h : Heap) (raw : slice string)
    (tokens : list string) :
  is_nil raw = false →
  contents h raw = Some tokens →
  length tokens mod 2 = 0 →
  (∀ k orderOption, tokens !! (2 * k) = Some orderOption →
                    orderOption = "a" ∨ orderOption = "d") →
  ∃ (p : ptr SortQuery) (h' : Heap) (entries : list SortBy),
    NewSortQuery g raw h = Some (p, h') ∧
    sort_entries h' p = Some entries ∧
    2 * length entries = length tokens ∧
    (∀ k, k < length entries →
       ∃ orderOption propertyName,
         tokens !! (2 * k) = Some orderOption ∧
         tokens !! (2 * k + 1) = Some propertyName ∧
         entries !! k = Some {| Property := propertyName;
                                Ascending := (orderOption =? "a")%string |}) ∧
    (tokens = ["a"; "name"; "d"; "age"] →
     entries = [ {| Property := "name"; Ascending := true |};
                 {| Property := "age"; Ascending := false |} ]).
Proof.
  intros Hnil Hraw Heven Hdir.
  pose proof (NewSortQuery_run g raw tokens h Hraw Hnil Heven) as Hrun.
  destruct (parse_pairs_good tokens Hdir) as [l Hl]. rewrite Hl in Hrun.
  destruct Hrun as (a & h' & q & Hrun & _ & _ & Hq & _ & Hc).
  destruct (parse_pairs_Some tokens l Hl) as [Hlen Hk].
  exists (ref a), h', l. split; [done|].
  split; [by apply (sort_entries_intro _ _ q)|]. split.
  { rewrite Hlen. pose proof (Nat.div_mod_eq (length tokens) 2). lia. }
  split.
  - intros k Hlt. destruct (Hk k Hlt) as (d & p & asc & Hd & Hp & Hasc & Hlk).
    exists d, p. by rewrite <- (direction_Some _ _ Hasc).
  - intros ->. by injection Hl as <-.
Qed.

Lemma NewSortQuery_pairs_witness :
  let tokens := ["a"; "name"; "d"; "age"] in
  ∃ (p : ptr SortQuery) (h' : Heap),
    NewSortQuery example_globals (example_raw tokens) (example_heap tokens)
    = Some (p, h') ∧
    sort_entries h' p = Some [ {| Property := "name"; Ascending := true |};
                               {| Property := "age"; Ascending := false |} ].
Proof.
  intros tokens.
  destruct (NewSortQuery_pairs example_globals (example_heap tokens)
              (example_raw tokens) tokens)
    as (p & h' & entries & Hrun & Hentries & _ & _ & Hexample).
  - reflexivity.
  - reflexivity.
  - reflexivity.
  - intros [|[|k]] orderOption Hk.
    + left. by injection Hk as <-.
    + right. by injection Hk as <-.
    + replace (2 * S (S k)) with (4 + 2 * k) in Hk by lia. discriminate Hk.
  - exists p, h'. split; [exact Hrun|]. rewrite <- (Hexample eq_refl).
    exact Hentries.
Defined.


(** C2. For the nil token list and for a token list of odd length,
    [NewSortQuery] returns the shared [NoSort] pointer, whose query has
    an empty list, and touches nothing; it returns, so nothing is raised. *)
Theorem NewSortQuery_nil_or_odd (env : Imports) (g : Globals) (h : Heap)
    (raw : slice string) :
  initialised env g h →
  raw = nil_slice ∨ len raw mod 2 = 1 →
  NewSortQuery g raw h = Some (NoSort g, h) ∧
  sort_entries h (NoSort g) = Some [].
Proof.
  intros Hinit Hguard. split.
  - apply NewSortQuery_guard. destruct Hguard as [-> | Hodd]; [by left | by right].
  - by apply (initialised_NoSort_entries env).
Qed.

Lemma NewSortQuery_nil_or_odd_witness :
  NewSortQuery example_globals (example_raw ["a"; "name"; "d"])
    (example_heap ["a"; "name"; "d"])
  = Some (NoSort example_globals, example_heap ["a"; "name"; "d"]) ∧
  sort_entries (example_heap ["a"; "name"; "d"]) (NoSort example_globals)
  = Some [].
Proof.
  apply (NewSortQuery_nil_or_odd example_env).
  - eexists example_boot, _. split; [reflexivity|]. by apply prefix_app_r.
  - right. reflexivity.
Defined.


(** C3. A token list with, at some even index, a direction that is
    neither "a" nor "d" makes [NewSortQuery] return the shared [NoSort]
    pointer, whatever pairs came before: its query has no entries, so no
    parsed prefix is returned. *)
Theorem NewSortQuery_bad_direction (env : Imports) (g : Globals) (h : Heap)
    (raw : slice string) (tokens : list string) (k : nat)
    (orderOption : string) :
  initialised env g h →
  contents h raw = Some tokens →
  tokens !! (2 * k) = Some orderOption →
  orderOption ≠ "a" → orderOption ≠ "d" →
  ∃ h' : Heap,
    NewSortQuery g raw h = Some (NoSort g, h') ∧
    h `prefix_of` h' ∧
    sort_entries h' (NoSort g) = Some [].
Proof.
  intros Hinit Hraw Hd Ha Hnd.
  pose proof (contents_length _ _ _ Hraw) as Hlen.
  pose proof (lookup_lt_Some _ _ _ Hd) as Hlt.
  destruct (decide (len raw mod 2 = 1)) as [Hodd|Heven].
  { exists h. rewrite NewSortQuery_guard by (by right).
    split; [done|]. split; [done|]. by apply (initialised_NoSort_entries env). }
  assert (length tokens mod 2 = 0) as Heven'.
  { rewrite Hlen. pose proof (Nat.mod_upper_bound (len raw) 2). lia. }
  assert (is_nil raw = false) as Hnil.
  { destruct raw; [|done]. simpl in Hlen. lia. }
  pose proof (NewSortQuery_run g raw tokens h Hraw Hnil Heven') as Hrun.
  rewrite (parse_pairs_bad tokens k orderOption Hd) in Hrun.
  - destruct Hrun as (h' & Hrun & Hpre). exists h'. split; [done|].
    split; [done|]. apply (initialised_NoSort_entries env).
    by apply (initialised_prefix _ _ h).
  - pose proof (Nat.div_mod_eq (length tokens) 2). lia.
  - by apply direction_None.
Qed.

Lemma NewSortQuery_bad_direction_witness :
  let tokens := ["a"; "name"; "up"; "age"] in
  ∃ h' : Heap,
    NewSortQuery example_globals (example_raw tokens) (example_heap tokens)
    = Some (NoSort example_globals, h') ∧
    example_heap tokens `prefix_of` h' ∧
    sort_entries h' (NoSort example_globals) = Some [].
Proof.
  apply (NewSortQuery_bad_direction example_env example_globals
           (example_heap ["a"; "name"; "up"; "age"])
           (example_raw ["a"; "name"; "up"; "age"])
           ["a"; "name"; "up"; "age"] 1 "up").
  - eexists example_boot, _. split; [reflexivity|]. by apply prefix_app_r.
  - reflexivity.
  - reflexivity.
  - discriminate.
  - discriminate.
Defined.


(** C8. [NewSortQuery] returns on every token slice, the nil slice
    included: a pointer that is not nil, to a query of the heap. On the
    empty slice that is not nil the query is a new object, not the shared
    [NoSort], and like it has no entries. *)
Theorem NewSortQuery_total (env : Imports) (g : Globals) (h : Heap)
    (raw : slice string) (tokens : list string) :
  initialised env g h →
  contents h raw = Some tokens →
  (∃ (a : addr) (h' : Heap) (entries : list SortBy),
     NewSortQuery g raw h = Some (ref a, h') ∧
     sort_entries h' (ref a) = Some entries) ∧
  (is_nil raw = false → len raw = 0 →
   ∃ (a : addr) (h' : Heap),
     NewSortQuery g raw h = Some (ref a, h') ∧
     ref a ≠ NoSort g ∧ length h ≤ a ∧
     sort_entries h' (ref a) = Some [] ∧
     sort_entries h' (NoSort g) = Some []).
Proof.
  intros Hinit Hraw. pose proof (contents_length _ _ _ Hraw) as Hlen.
  destruct (initialised_NoSort _ _ _ Hinit) as (n & qn & Hn & Hnlt & _).
  split.
  - destruct (decide (is_nil raw = true ∨ len raw mod 2 = 1)) as [Hguard|Hrun].
    + exists n, h, []. rewrite NewSortQuery_guard by done. rewrite Hn.
      split; [done|]. rewrite <- Hn. by apply (initialised_NoSort_entries env).
    + assert (is_nil raw = false) as Hnil by (destruct (is_nil raw); tauto).
      assert (length tokens mod 2 = 0) as Heven.
      { rewrite Hlen. pose proof (Nat.mod_upper_bound (len raw) 2). lia. }
      pose proof (NewSortQuery_run g raw tokens h Hraw Hnil Heven) as Hrun'.
      destruct (parse_pairs tokens) as [l|].
      * destruct Hrun' as (a & h' & q & Hrun' & _ & _ & Hq & _ & Hc).
        exists a, h', l. split; [done|]. by apply (sort_entries_intro _ _ q).
      * destruct Hrun' as (h' & Hrun' & Hpre). exists n, h', [].
        rewrite Hrun', Hn. split; [done|]. rewrite <- Hn.
        apply (initialised_NoSort_entries env).
        by apply (initialised_prefix _ _ h).
  - intros Hnil Hempty.
    assert (tokens = []) as -> by (apply length_zero_iff_nil; lia).
    destruct (NewSortQuery_run g raw [] h Hraw Hnil eq_refl)
      as (a & h' & q & Hrun & Hpre & Hfresh & Hq & _ & Hc).
    exists a, h'. split; [done|]. split; [rewrite Hn; intros [= ->]; lia|].
    split; [done|]. split; [by apply (sort_entries_intro _ _ q)|].
    apply (initialised_NoSort_entries env). by apply (initialised_prefix _ _ h).
Qed.

Lemma NewSortQuery_total_witness :
  ∃ (a : addr) (h' : Heap),
    NewSortQuery example_globals (example_raw []) (example_heap [])
    = Some (ref a, h') ∧
    ref a ≠ NoSort example_globals ∧ length (example_heap []) ≤ a ∧
    sort_entries h' (ref a) = Some [] ∧
    sort_entries h' (NoSort example_globals) = Some [].
Proof.
  destruct (NewSortQuery_total example_env example_globals (example_heap [])
              (example_raw []) []) as [_ Hempty].
  - eexists example_boot, _. split; [reflexivity|]. by apply prefix_app_r.
  - reflexivity.
  - apply Hempty; reflexivity.
Defined.


(** C9. The property token of a pair is taken as it is: the tokens that
    spell any list of criteria, whatever strings their property names
    are (empty, repeated, known to no comparator), parse to that list. *)
Theorem NewSortQuery_any_property (g : Globals) (h : Heap)
    (raw : slice string) (criteria : list SortBy) :
  is_nil raw = false →
  contents h raw = Some (tokens_of criteria) →
  ∃ (p : ptr SortQuery) (h' : Heap),
    NewSortQuery g raw h = Some (p, h') ∧
    sort_entries h' p = Some criteria.
Proof.
  intros Hnil Hraw.
  assert (length (tokens_of criteria) mod 2 = 0) as Heven.
  { rewrite tokens_of_length, Nat.mul_comm. by apply Nat.Div0.mod_mul. }
  pose proof (NewSortQuery_run g raw _ h Hraw Hnil Heven) as Hrun.
  rewrite parse_pairs_tokens_of in Hrun.
  destruct Hrun as (a & h' & q & Hrun & _ & _ & Hq & _ & Hc).
  exists (ref a), h'. split; [done|]. by apply (sort_entries_intro _ _ q).
Qed.

Lemma NewSortQuery_any_property_witness :
  let criteria := [ {| Property := ""; Ascending := true |};
                    {| Property := "name"; Ascending := false |};
                    {| Property := "name"; Ascending := true |};
                    {| Property := "no such property"; Ascending := false |} ] in
  ∃ (p : ptr SortQuery) (h' : Heap),
    NewSortQuery example_globals (example_raw (tokens_of criteria))
      (example_heap (tokens_of criteria))
    = Some (p, h') ∧
    sort_entries h' p = Some criteria.
Proof.
  intros criteria.
  apply (NewSortQuery_any_property example_globals
           (example_heap (tokens_of criteria))
           (example_raw (tokens_of criteria)) criteria).
  - reflexivity.
  - reflexivity.
Defined.


(** * Equality in structure *)

Lemma slice_eq_prefix {T} `{Stored (list T)} (h1 h1' h2 h2' : Heap)
    (s1 s2 : slice T) :
  h1 `prefix_of` h1' → h2 `prefix_of` h2' →
  slice_eq h1 s1 h2 s2 → slice_eq h1' s1 h2' s2.
Proof.
  intros Hp1 Hp2 (Hnil & l & Hc1 & Hc2). split; [done|]. exists l.
  split; by eapply contents_prefix.
Qed.

Lemma ptr_eq_prefix {T} `{Stored T} (R : Heap → T → Heap → T → Prop)
    (h1 h1' h2 h2' : Heap) (p1 p2 : ptr T) :
  (∀ v1 v2, R h1 v1 h2 v2 → R h1' v1 h2' v2) →
  h1 `prefix_of` h1' → h2 `prefix_of` h2' →
  ptr_eq R h1 p1 h2 p2 → ptr_eq R h1' p1 h2' p2.
Proof.
  intros HR Hp1 Hp2 [Hnull | (v1 & v2 & Hd1 & Hd2 & Hv)]; [by left|].
  right. exists v1, v2. split; [by eapply deref_prefix|].
  split; [by eapply deref_prefix|]. by apply HR.
Qed.

Lemma MetricQuery_eq_prefix (h1 h1' h2 h2' : Heap) (q1 q2 : MetricQuery) :
  h1 `prefix_of` h1' → h2 `prefix_of` h2' →
  MetricQuery_eq h1 q1 h2 q2 → MetricQuery_eq h1' q1 h2' q2.
Proof. intros Hp1 Hp2 [Hn Ha]. split; by eapply slice_eq_prefix. Qed.

Lemma SortQuery_eq_prefix (h1 h1' h2 h2' : Heap) (q1 q2 : SortQuery) :
  h1 `prefix_of` h1' → h2 `prefix_of` h2' →
  SortQuery_eq h1 q1 h2 q2 → SortQuery_eq h1' q1 h2' q2.
Proof. unfold SortQuery_eq. apply slice_eq_prefix. Qed.

Lemma NoSort_eq (env : Imports) (g : Globals) (h1 h2 : Heap) :
  initialised env g h1 → initialised env g h2 →
  ptr_eq SortQuery_eq h1 (NoSort g) h2 (NoSort g).
Proof.
  intros Hi1 Hi2.
  destruct (initialised_NoSort _ _ _ Hi1) as (_ & q1 & _ & _ & Hq1 & Hn1 & Hc1).
  destruct (initialised_NoSort _ _ _ Hi2) as (_ & q2 & _ & _ & Hq2 & Hn2 & Hc2).
  right. exists q1, q2. split; [done|]. split; [done|].
  split; [congruence|]. by exists [].
Qed.

(** C10. The three constructors are functions of the structure of their
    arguments and change nothing that exists: run in any two heaps on
    arguments equal in structure they return results equal in structure,
    and each heap is only extended, so every object it held, the backing
    array of the token slice among them, is as before. *)
Theorem constructors_deterministic :
  (∀ (h1 h2 : Heap) (names1 names2 : slice string)
     (aggs1 aggs2 : AggregationNames),
     slice_eq h1 names1 h2 names2 →
     slice_eq h1 aggs1 h2 aggs2 →
     ∃ p1 h1' p2 h2',
       NewMetricQuery names1 aggs1 h1 = Some (p1, h1') ∧
       NewMetricQuery names2 aggs2 h2 = Some (p2, h2') ∧
       h1 `prefix_of` h1' ∧ h2 `prefix_of` h2' ∧
       ptr_eq MetricQuery_eq h1' p1 h2' p2) ∧
  (∀ (h1 h2 : Heap) (p1 p2 : ptr PaginationQuery) (s1 s2 : ptr SortQuery)
     (m1 m2 : ptr MetricQuery),
     ptr_eq PaginationQuery_eq h1 p1 h2 p2 →
     ptr_eq SortQuery_eq h1 s1 h2 s2 →
     ptr_eq MetricQuery_eq h1 m1 h2 m2 →
     ∃ d1 h1' d2 h2',
       NewDataSelectQuery p1 s1 m1 h1 = Some (d1, h1') ∧
       NewDataSelectQuery p2 s2 m2 h2 = Some (d2, h2') ∧
       h1 `prefix_of` h1' ∧ h2 `prefix_of` h2' ∧
       ptr_eq DataSelectQuery_eq h1' d1 h2' d2) ∧
  (∀ (env : Imports) (g : Globals) (h1 h2 : Heap) (raw1 raw2 : slice string),
     initialised env g h1 → initialised env g h2 →
     slice_eq h1 raw1 h2 raw2 →
     ∃ p1 h1' p2 h2',
       NewSortQuery g raw1 h1 = Some (p1, h1') ∧
       NewSortQuery g raw2 h2 = Some (p2, h2') ∧
       h1 `prefix_of` h1' ∧ h2 `prefix_of` h2' ∧
       ptr_eq SortQuery_eq h1' p1 h2' p2 ∧
       contents h1' raw1 = contents h1 raw1 ∧
       contents h2' raw2 = contents h2 raw2).
Proof.
  split; [|split].
  - intros h1 h2 names1 names2 aggs1 aggs2 Hnames Haggs.
    unfold NewMetricQuery. rewrite !new_spec. do 4 eexists.
    split; [done|]. split; [done|].
    assert (h1 `prefix_of` h1 ++ [to_object {| MetricNames := names1;
              Aggregations := aggs1 |}]) as Hp1 by (by apply prefix_app_r).
    assert (h2 `prefix_of` h2 ++ [to_object {| MetricNames := names2;
              Aggregations := aggs2 |}]) as Hp2 by (by apply prefix_app_r).
    split; [done|]. split; [done|]. right. do 2 eexists.
    split; [apply (load_fresh (T:=MetricQuery))|].
    split; [apply (load_fresh (T:=MetricQuery))|].
    split; simpl; by eapply slice_eq_prefix.
  - intros h1 h2 p1 p2 s1 s2 m1 m2 Hp Hs Hm.
    unfold NewDataSelectQuery. rewrite !new_spec. do 4 eexists.
    split; [done|]. split; [done|].
    match goal with |- ?a `prefix_of` ?b ∧ _ =>
      assert (a `prefix_of` b) as Hp1 by (by apply prefix_app_r) end.
    split; [done|].
    match goal with |- ?a `prefix_of` ?b ∧ _ =>
      assert (a `prefix_of` b) as Hp2 by (by apply prefix_app_r) end.
    split; [done|]. right. do 2 eexists.
    split; [apply (load_fresh (T:=DataSelectQuery.t))|].
    split; [apply (load_fresh (T:=DataSelectQuery.t))|].
    split; [|split]; simpl.
    + eapply ptr_eq_prefix; [|exact Hp1|exact Hp2|exact Hp]. done.
    + eapply ptr_eq_prefix; [|exact Hp1|exact Hp2|exact Hs].
      intros ??. by apply SortQuery_eq_prefix.
    + eapply ptr_eq_prefix; [|exact Hp1|exact Hp2|exact Hm].
      intros ??. by apply MetricQuery_eq_prefix.
  - intros env g h1 h2 raw1 raw2 Hi1 Hi2 (Hnil & tokens & Hc1 & Hc2).
    pose proof (contents_length _ _ _ Hc1) as Hlen1.
    pose proof (contents_length _ _ _ Hc2) as Hlen2.
    destruct (decide (is_nil raw1 = true ∨ len raw1 mod 2 = 1)) as [Hguard|Hrun].
    + exists (NoSort g), h1, (NoSort g), h2.
      rewrite !NewSortQuery_guard; [| by rewrite <- Hnil, <- Hlen2, Hlen1 | done].
      repeat (split; [done|]). split; [|done]. by apply (NoSort_eq env).
    + assert (is_nil raw1 = false) as Hnil1 by (destruct (is_nil raw1); tauto).
      assert (is_nil raw2 = false) as Hnil2 by congruence.
      assert (length tokens mod 2 = 0) as Heven.
      { rewrite Hlen1. pose proof (Nat.mod_upper_bound (len raw1) 2). lia. }
      pose proof (NewSortQuery_run g raw1 tokens h1 Hc1 Hnil1 Heven) as Hrun1.
      pose proof (NewSortQuery_run g raw2 tokens h2 Hc2 Hnil2 Heven) as Hrun2.
      destruct (parse_pairs tokens) as [l|].
      * destruct Hrun1 as (a1 & h1' & q1 & Hrun1 & Hp1 & _ & Hq1 & Hn1 & Hl1).
        destruct Hrun2 as (a2 & h2' & q2 & Hrun2 & Hp2 & _ & Hq2 & Hn2 & Hl2).
        exists (ref a1), h1', (ref a2), h2'. repeat (split; [done|]). split.
        { right. exists q1, q2. repeat (split; [done|]).
          split; [congruence|]. by exists l. }
        rewrite Hc1, Hc2. split; by eapply contents_prefix.
      * destruct Hrun1 as (h1' & Hrun1 & Hp1).
        destruct Hrun2 as (h2' & Hrun2 & Hp2).
        exists (NoSort g), h1', (NoSort g), h2'. repeat (split; [done|]). split.
        { apply (NoSort_eq env);
            [by apply (initialised_prefix _ _ h1) | by apply (initialised_prefix _ _ h2)]. }
        rewrite Hc1, Hc2. split; by eapply contents_prefix.
Qed.

Lemma constructors_deterministic_witness :
  let tokens := ["d"; "age"] in
  let h1 := example_heap tokens in
  let h2 := example_heap ["a"] ++ [StringArray ("x" :: tokens)] in
  let raw1 := example_raw tokens in
  let raw2 := slice_of 13 1 2 in
  ∃ p1 h1' p2 h2',
    NewSortQuery example_globals raw1 h1 = Some (p1, h1') ∧
    NewSortQuery example_globals raw2 h2 = Some (p2, h2') ∧
    h1 `prefix_of` h1' ∧ h2 `prefix_of` h2' ∧
    ptr_eq SortQuery_eq h1' p1 h2' p2 ∧
    contents h1' raw1 = contents h1 raw1 ∧
    contents h2' raw2 = contents h2 raw2.
Proof.
  intros tokens h1 h2 raw1 raw2.
  apply (proj2 (proj2 constructors_deterministic) example_env).
  - eexists example_boot, _. split; [reflexivity|]. by apply prefix_app_r.
  - eexists example_boot, _. split; [reflexivity|].
    by exists [StringArray ["a"]; StringArray ("x" :: tokens)].
  - split; [reflexivity|]. exists tokens. split; reflexivity.
Defined.


(** * The presets *)

(** What the package variables point to once initialised. *)
Lemma initialised_presets (env : Imports) (g : Globals) (h : Heap) :
  initialised env g h →
  ∃ names : slice string,
    contents h names = Some [CpuUsage env; MemoryUsage env] ∧
    deref h (NoMetrics g)
    = Some {| MetricNames := nil_slice; Aggregations := nil_slice |} ∧
    deref h (StandardMetrics g)
    = Some {| MetricNames := names; Aggregations := OnlySumAggregation env |} ∧
    deref h (NoDataSelect g)
    = Some {| DataSelectQuery.PaginationQuery := NoPagination env;
              DataSelectQuery.SortQuery := NoSort g;
              DataSelectQuery.MetricQuery := NoMetrics g |} ∧
    deref h (StdMetricsDataSelect g)
    = Some {| DataSelectQuery.PaginationQuery := NoPagination env;
              DataSelectQuery.SortQuery := NoSort g;
              DataSelectQuery.MetricQuery := StandardMetrics g |} ∧
    deref h (DefaultDataSelect g)
    = Some {| DataSelectQuery.PaginationQuery := DefaultPagination env;
              DataSelectQuery.SortQuery := NoSort g;
              DataSelectQuery.MetricQuery := NoMetrics g |} ∧
    deref h (DefaultDataSelectWithMetrics g)
    = Some {| DataSelectQuery.PaginationQuery := DefaultPagination env;
              DataSelectQuery.SortQuery := NoSort g;
              DataSelectQuery.MetricQuery := StandardMetrics g |}.
Proof.
  intros (h0 & h1 & Hinit & Hpre). rewrite package_init_spec in Hinit.
  injection Hinit as <- <-.
  cbn [NoMetrics StandardMetrics NoSort NoDataSelect StdMetricsDataSelect
       DefaultDataSelect DefaultDataSelectWithMetrics].
  exists (slice_of (length h0 + 1) 0 2). split.
  { eapply contents_prefix; [exact Hpre|]. cbn [contents].
    by rewrite load_app_plus. }
  split.
  { eapply deref_prefix; [exact Hpre|]. cbn [deref].
    by rewrite load_app_0. }
  repeat split; (eapply deref_prefix; [exact Hpre|]); cbn [deref];
    by rewrite load_app_plus.
Qed.

(** C6. [NewDataSelectQuery(p, s, m)] returns a pointer to a query whose
    three fields are p, s and m, and the four presets point to the
    queries made of the presets their names announce. *)
Theorem NewDataSelectQuery_composes (env : Imports) (g : Globals) (h : Heap) :
  initialised env g h →
  (∀ (p : ptr PaginationQuery) (s : ptr SortQuery) (m : ptr MetricQuery)
     (h0 : Heap),
     ∃ (a : addr) (h' : Heap),
       NewDataSelectQuery p s m h0 = Some (ref a, h') ∧
       deref h' (ref a)
       = Some {| DataSelectQuery.PaginationQuery := p;
                 DataSelectQuery.SortQuery := s;
                 DataSelectQuery.MetricQuery := m |}) ∧
  deref h (NoDataSelect g)
  = Some {| DataSelectQuery.PaginationQuery := NoPagination env;
            DataSelectQuery.SortQuery := NoSort g;
            DataSelectQuery.MetricQuery := NoMetrics g |} ∧
  deref h (DefaultDataSelect g)
  = Some {| DataSelectQuery.PaginationQuery := DefaultPagination env;
            DataSelectQuery.SortQuery := NoSort g;
            DataSelectQuery.MetricQuery := NoMetrics g |} ∧
  deref h (StdMetricsDataSelect g)
  = Some {| DataSelectQuery.PaginationQuery := NoPagination env;
            DataSelectQuery.SortQuery := NoSort g;
            DataSelectQuery.MetricQuery := StandardMetrics g |} ∧
  deref h (DefaultDataSelectWithMetrics g)
  = Some {| DataSelectQuery.PaginationQuery := DefaultPagination env;
            DataSelectQuery.SortQuery := NoSort g;
            DataSelectQuery.MetricQuery := StandardMetrics g |}.
Proof.
  intros Hinit.
  destruct (initialised_presets _ _ _ Hinit)
    as (names & _ & _ & _ & Hno & Hstd & Hdef & Hdefm).
  split; [|done].
  intros p s m h0. unfold NewDataSelectQuery. rewrite new_spec.
  do 2 eexists. split; [done|]. apply (load_fresh (T:=DataSelectQuery.t)).
Qed.

Lemma NewDataSelectQuery_composes_witness :
  deref (example_heap []) (NoDataSelect example_globals)
  = Some {| DataSelectQuery.PaginationQuery := NoPagination example_env;
            DataSelectQuery.SortQuery := NoSort example_globals;
            DataSelectQuery.MetricQuery := NoMetrics example_globals |} ∧
  deref (example_heap []) (DefaultDataSelect example_globals)
  = Some {| DataSelectQuery.PaginationQuery := DefaultPagination example_env;
            DataSelectQuery.SortQuery := NoSort example_globals;
            DataSelectQuery.MetricQuery := NoMetrics example_globals |} ∧
  deref (example_heap []) (StdMetricsDataSelect example_globals)
  = Some {| DataSelectQuery.PaginationQuery := NoPagination example_env;
            DataSelectQuery.SortQuery := NoSort example_globals;
            DataSelectQuery.MetricQuery := StandardMetrics example_globals |} ∧
  deref (example_heap []) (DefaultDataSelectWithMetrics example_globals)
  = Some {| DataSelectQuery.PaginationQuery := DefaultPagination example_env;
            DataSelectQuery.SortQuery := NoSort example_globals;
            DataSelectQuery.MetricQuery := StandardMetrics example_globals |}.
Proof.
  apply (NewDataSelectQuery_composes example_env example_globals
           (example_heap [])).
  eexists example_boot, _. split; [reflexivity|]. by apply prefix_app_r.
Defined.


(** C7. [StandardMetrics] asks for the two metric names cpu usage and
    memory usage and for the aggregations of the only-sum preset, the
    sum alone; [NoMetrics] has the nil list of metric names, on which
    the metric stage fetches nothing and returns no metrics. *)
Theorem metric_presets (env : Imports) (g : Globals) (h : Heap) :
  initialised env g h →
  metric_initialised env h →
  (∃ q : MetricQuery,
     deref h (StandardMetrics g) = Some q ∧
     contents h (MetricNames q) = Some [CpuUsage env; MemoryUsage env] ∧
     Aggregations q = OnlySumAggregation env ∧
     contents h (Aggregations q) = Some [SumAggregation env]) ∧
  (∃ q : MetricQuery,
     deref h (NoMetrics g) = Some q ∧
     MetricNames q = nil_slice ∧ len (MetricNames q) = 0) ∧
  (∀ (Item Raw Series : Type)
     (fetchSeries : list Item → list string → option Raw)
     (aggregate : AggregationName → Raw → string → Series)
     (sum : AggregationName) (selected : list Item),
     run_metric_query fetchSeries aggregate sum h (NoMetrics g) selected
     = Some {| fetches := []; metrics := Metrics [] |}).
Proof.
  intros Hinit Hmetric.
  destruct (initialised_presets _ _ _ Hinit)
    as (names & Hnames & Hno & Hstd & _).
  split; [|split].
  - eexists. split; [exact Hstd|]. done.
  - eexists. split; [exact Hno|]. done.
  - intros Item Raw Series fetchSeries aggregate sum selected.
    unfold run_metric_query. by rewrite Hno.
Qed.

Lemma metric_presets_witness :
  (∃ q : MetricQuery,
     deref (example_heap []) (StandardMetrics example_globals) = Some q ∧
     contents (example_heap []) (MetricNames q)
     = Some ["cpu/usage_rate"; "memory/usage"] ∧
     Aggregations q = OnlySumAggregation example_env ∧
     contents (example_heap []) (Aggregations q) = Some ["sum"]) ∧
  (∃ q : MetricQuery,
     deref (example_heap []) (NoMetrics example_globals) = Some q ∧
     MetricNames q = nil_slice ∧ len (MetricNames q) = 0).
Proof.
  destruct (metric_presets example_env example_globals (example_heap []))
    as (Hstandard & Hno & _).
  - eexists example_boot, _. split; [reflexivity|]. by apply prefix_app_r.
  - reflexivity.
  - split; [exact Hstandard | exact Hno].
Defined.


(** * The pagination stage *)

Example paginate_second_page :
  paginate (seq 0 12) {| ItemsPerPage := 10; Page := 2 |}
  = Some {| items := [10; 11]; totalItems := 12 |}.
Proof. reflexivity. Qed.

(** C4. With a positive page size and a page that starts at or past the
    end of the sequence, the pagination stage returns: the page is empty
    and the total is the length of the whole sequence. *)
Theorem paginate_out_of_range {A : Type} (sequence : list A)
    (pQuery : PaginationQuery) :
  (ItemsPerPage pQuery > 0)%Z →
  ((Page pQuery - 1) * ItemsPerPage pQuery >= Z.of_nat (length sequence))%Z →
  paginate sequence pQuery
  = Some {| items := []; totalItems := Z.of_nat (length sequence) |}.
Proof.
  intros Hsize Hstart. unfold paginate.
  destruct (Z.eqb_spec (ItemsPerPage pQuery) 0) as [Hzero|_]; [lia|].
  destruct (Z.geb_spec ((Page pQuery - 1) * ItemsPerPage pQuery)
              (Z.of_nat (length sequence))); [done | lia].
Qed.

Lemma paginate_out_of_range_witness :
  paginate ["x"; "y"; "z"] {| ItemsPerPage := 10; Page := 2 |}
  = Some {| items := []; totalItems := 3 |}.
Proof.
  apply (paginate_out_of_range ["x"; "y"; "z"]
           {| ItemsPerPage := 10; Page := 2 |}).
  - reflexivity.
  - simpl. lia.
Defined.


(** * The sort stage *)

Lemma lookup_insert_middle {A : Type} (l1 l2 : list A) (x a : A) (i : nat) :
  (l1 ++ l2) !! i = Some a →
  (l1 ++ x :: l2) !! (if decide (i < length l1) then i else S i) = Some a.
Proof.
  intros Hi. case_decide as Hlt.
  - rewrite lookup_app_l in Hi by done. by rewrite lookup_app_l.
  - rewrite lookup_app_r in Hi by lia. rewrite lookup_app_r by lia.
    by replace (S i - length l1) with (S (i - length l1)) by lia.
Qed.

Lemma before_insert_middle {A : Type} (l1 l2 : list A) (x a b : A) :
  before a b (l1 ++ l2) → before a b (l1 ++ x :: l2).
Proof.
  intros (i & j & Hij & Hi & Hj).
  exists (if decide (i < length l1) then i else S i),
         (if decide (j < length l1) then j else S j).
  split; [repeat case_decide; lia|].
  split; by apply lookup_insert_middle.
Qed.

Section SortStageLemmas.
Context {Item Value : Type}.
Variable propertyValue : Item → PropertyName → option Value.
Variable compareValue : Value → Value → comparison.

(** What the stability of the stage needs of the comparator: two
    values that compare equal do so in either order. *)
Hypothesis compareValue_Eq_sym :
  ∀ x y, compareValue x y = Eq → compareValue y x = Eq.

Local Abbreviation compare_by' := (compare_by propertyValue compareValue).
Local Abbreviation compare_items' :=
  (compare_items propertyValue compareValue).
Local Abbreviation less' := (less propertyValue compareValue).
Local Abbreviation insert_item' := (insert_item propertyValue compareValue).
Local Abbreviation sort_stage' := (sort_stage propertyValue compareValue).
Local Abbreviation equal_under' := (equal_under propertyValue compareValue).

Lemma compare_by_Eq_sym (sortBy : SortBy) (a b : Item) :
  compare_by' sortBy a b = Eq → compare_by' sortBy b a = Eq.
Proof.
  unfold compare_by.
  destruct (propertyValue a (Property sortBy)) as [va|],
           (propertyValue b (Property sortBy)) as [vb|]; try done.
  destruct (Ascending sortBy).
  - apply compareValue_Eq_sym.
  - intros Hab. rewrite compareValue_Eq_sym; [done|].
    by destruct (compareValue va vb).
Qed.

Lemma equal_under_not_less (sortByList : list SortBy) (a b : Item) :
  equal_under' sortByList a b → less' sortByList b a = false.
Proof.
  unfold less. intros Heq.
  assert (compare_items' sortByList b a = Eq) as ->; [|done].
  induction Heq as [|sortBy rest Hab _ IH]; simpl; [done|].
  by rewrite (compare_by_Eq_sym _ _ _ Hab).
Qed.

(** Insertion puts the item after the items less' than it that lead the
    list, and nowhere else. *)
Lemma insert_item_split (sortByList : list SortBy) (x : Item)
    (sorted : list Item) :
  ∃ l1 l2, sorted = l1 ++ l2 ∧
           insert_item' sortByList x sorted = l1 ++ x :: l2 ∧
           Forall (λ y, less' sortByList y x = true) l1.
Proof.
  induction sorted as [|y rest (l1 & l2 & -> & Hins & Hless)]; simpl.
  - by exists [], [].
  - destruct (less' sortByList y x) eqn:Hy.
    + exists (y :: l1), l2. rewrite Hins. by repeat constructor.
    + by exists [], (y :: l1 ++ l2).
Qed.

Lemma sort_stage_Permutation (sortByList : list SortBy)
    (sequence : list Item) :
  sort_stage' sortByList sequence ≡ₚ sequence.
Proof.
  induction sequence as [|x rest IH]; simpl; [done|].
  destruct (insert_item_split sortByList x (sort_stage' sortByList rest))
    as (l1 & l2 & Hsplit & -> & _).
  rewrite <- IH, Hsplit. by rewrite Permutation_middle.
Qed.

Lemma sort_stage_before (sortByList : list SortBy) (sequence : list Item)
    (a b : Item) :
  equal_under' sortByList a b →
  before a b sequence →
  before a b (sort_stage' sortByList sequence).
Proof.
  intros Heq. induction sequence as [|x rest IH];
    intros (i & j & Hij & Hi & Hj); [done|].
  simpl.
  destruct (insert_item_split sortByList x (sort_stage' sortByList rest))
    as (l1 & l2 & Hsplit & -> & Hless).
  destruct j as [|j]; [lia|]. destruct i as [|i]; simpl in Hi, Hj.
  - injection Hi as ->.
    assert (b ∈ l1 ++ l2) as Hb.
    { rewrite <- Hsplit, sort_stage_Permutation.
      by apply list_elem_of_lookup_2 with j. }
    apply list_elem_of_lookup in Hb as [j' Hj'].
    exists (length l1), (S j').
    destruct (decide (j' < length l1)) as [Hlt|Hge].
    + rewrite lookup_app_l in Hj' by done.
      rewrite Forall_lookup in Hless. specialize (Hless _ _ Hj').
      by rewrite (equal_under_not_less _ _ _ Heq) in Hless.
    + split; [lia|]. split; [by apply list_lookup_middle|].
      rewrite lookup_app_r in Hj' by lia. rewrite lookup_app_r by lia.
      by replace (S j' - length l1) with (S (j' - length l1)) by lia.
  - apply before_insert_middle. rewrite <- Hsplit. apply IH.
    exists i, j. split; [lia|]. done.
Qed.

Lemma sort_stage_empty_query (sequence : list Item) :
  sort_stage' [] sequence = sequence.
Proof.
  induction sequence as [|x rest IH]; simpl; [done|]. rewrite IH.
  by destruct rest.
Qed.
End SortStageLemmas.

(** The stage on items that carry their position in the sequence: the
    position plays no part in the comparisons, so the items come out as
    they do without it. *)
Section SortStagePositions.
Context {Item Value : Type}.
Variable propertyValue : Item → PropertyName → option Value.
Variable compareValue : Value → Value → comparison.

Local Abbreviation at_position :=
  (λ (item : nat * Item) (name : PropertyName), propertyValue item.2 name).

Lemma compare_items_position (sortByList : list SortBy) (x y : nat * Item) :
  compare_items at_position compareValue sortByList x y
  = compare_items propertyValue compareValue sortByList x.2 y.2.
Proof.
  induction sortByList as [|sortBy rest IH]; [done|].
  cbn [compare_items]. rewrite IH. reflexivity.
Qed.

Lemma insert_item_position (sortByList : list SortBy) (x : nat * Item)
    (sorted : list (nat * Item)) :
  (insert_item at_position compareValue sortByList x sorted).*2
  = insert_item propertyValue compareValue sortByList x.2 sorted.*2.
Proof.
  induction sorted as [|y rest IH]; [done|].
  cbn [insert_item fmap list_fmap]. unfold less.
  rewrite compare_items_position.
  destruct (compare_items propertyValue compareValue sortByList y.2 x.2);
    cbn [fmap list_fmap]; by rewrite ?IH.
Qed.

Lemma sort_stage_position (sortByList : list SortBy)
    (sequence : list (nat * Item)) :
  (sort_stage at_position compareValue sortByList sequence).*2
  = sort_stage propertyValue compareValue sortByList sequence.*2.
Proof.
  induction sequence as [|x rest IH]; [done|].
  cbn [sort_stage foldr fmap list_fmap].
  rewrite insert_item_position. f_equal. exact IH.
Qed.
End SortStagePositions.

(** C5. The sort stage is stable. The sorted sequence lists the items of
    the sequence by some arrangement of its positions, each position
    once; whenever two positions i < j hold items that compare equal
    under every criterion of the query, i comes before j in that
    arrangement, so the two items keep their order. Under the empty query
    the sorted sequence is the sequence. *)
Theorem sort_stage_stable {Item Value : Type}
    (propertyValue : Item → PropertyName → option Value)
    (compareValue : Value → Value → comparison)
    (sortByList : list SortBy) (sequence : list Item) :
  (∀ x y, compareValue x y = Eq → compareValue y x = Eq) →
  (∃ positions : list nat,
     positions ≡ₚ seq 0 (length sequence) ∧
     Forall2 (λ (i : nat) (item : Item), sequence !! i = Some item)
       positions
       (sort_stage propertyValue compareValue sortByList sequence) ∧
     ∀ (i j : nat) (a b : Item),
       i < j →
       sequence !! i = Some a →
       sequence !! j = Some b →
       equal_under propertyValue compareValue sortByList a b →
       before i j positions) ∧
  sort_stage propertyValue compareValue sortByList sequence ≡ₚ sequence ∧
  sort_stage propertyValue compareValue [] sequence = sequence.
Proof.
  intros Hsym. split; [|split].
  - set (at_position :=
           λ (item : nat * Item) (name : PropertyName), propertyValue item.2 name).
    set (placed := zip (seq 0 (length sequence)) sequence).
    set (sorted := sort_stage at_position compareValue sortByList placed).
    assert (sorted ≡ₚ placed) as Hperm
      by (by apply sort_stage_Permutation).
    assert (placed.*1 = seq 0 (length sequence)) as Hfst
      by (apply fst_zip; by rewrite length_seq).
    assert (placed.*2 = sequence) as Hsnd
      by (apply snd_zip; by rewrite length_seq).
    assert (∀ i a, sequence !! i = Some a → placed !! i = Some (i, a)) as Hplaced.
    { intros i a Hi. apply lookup_zip_Some. split; [|done].
      apply lookup_seq. split; [done|]. by apply lookup_lt_Some in Hi. }
    exists sorted.*1. split; [by rewrite Hperm, Hfst|]. split.
    + assert (sorted.*2
              = sort_stage propertyValue compareValue sortByList sequence)
        as <-.
      { unfold sorted, at_position.
        rewrite (sort_stage_position propertyValue compareValue).
        by rewrite Hsnd. }
      apply Forall2_fmap, Forall_Forall2_diag.
      apply Forall_forall. intros [i a] Hin. cbn [fst snd].
      rewrite Hperm in Hin. apply list_elem_of_lookup in Hin as [k Hk].
      apply lookup_zip_Some in Hk as [Hk1 Hk2].
      apply lookup_seq in Hk1 as [-> _]. done.
    + intros i j a b Hij Hi Hj Hequal.
      destruct (sort_stage_before at_position compareValue Hsym sortByList
                  placed (i, a) (j, b)) as (i' & j' & Hij' & Hi' & Hj').
      * unfold equal_under, compare_by, at_position. exact Hequal.
      * exists i, j. split; [done|]. split; by apply Hplaced.
      * exists i', j'. split; [done|]. rewrite !list_lookup_fmap.
        fold sorted in Hi', Hj'. by rewrite Hi', Hj'.
  - by apply sort_stage_Permutation.
  - apply sort_stage_empty_query.
Qed.

Lemma sort_stage_stable_witness :
  let age (item : Z * string) (name : PropertyName) : option Z :=
    if (name =? "age")%string then Some (fst item) else None in
  let sortByList := [ {| Property := "age"; Ascending := false |} ] in
  let sequence := [ (30, "x"); (41, "first"); (30, "y"); (41, "second") ]%Z in
  (∃ positions : list nat,
     positions ≡ₚ seq 0 (length sequence) ∧
     Forall2 (λ (i : nat) (item : Z * string), sequence !! i = Some item)
       positions (sort_stage age Z.compare sortByList sequence) ∧
     before 1 3 positions ∧ before 0 2 positions) ∧
  sort_stage age Z.compare sortByList sequence ≡ₚ sequence ∧
  sort_stage age Z.compare [] sequence = sequence.
Proof.
  intros age sortByList sequence.
  destruct (sort_stage_stable age Z.compare sortByList sequence)
    as ((positions & Hperm & Hat & Hstable) & Hsame & Hempty).
  - intros x y Hxy. apply Z.compare_eq_iff in Hxy as ->. apply Z.compare_refl.
  - split; [|by split]. exists positions.
    split; [exact Hperm|]. split; [exact Hat|]. split.
    + apply (Hstable 1 3 (41, "first")%Z (41, "second")%Z);
        [lia | reflexivity | reflexivity | repeat constructor].
    + apply (Hstable 0 2 (30, "x")%Z (30, "y")%Z);
        [lia | reflexivity | reflexivity | repeat constructor].
Defined.


(** * More on the sort-token parser *)

Lemma mod2_SS (n : nat) : S (S n) mod 2 = n mod 2.
Proof.
  replace (S (S n)) with (n + 1 * 2) by lia. apply Nat.Div0.mod_add.
Qed.

(** The pairs of an even-length token list spell it back. *)
Lemma tokens_of_parse_pairs (tokens : list string) :
  ∀ l : list SortBy,
    length tokens mod 2 = 0 →
    parse_pairs tokens = Some l →
    tokens_of l = tokens.
Proof.
  induction tokens as [| x | x y rest IH] using pairs_ind; intros l Heven Hl;
    cbn [parse_pairs] in Hl.
  - by injection Hl as <-.
  - discriminate Heven.
  - destruct (direction x) as [asc|] eqn:Hx; [|discriminate].
    destruct (parse_pairs rest) as [l'|]; [|discriminate].
    injection Hl as <-.
    change (tokens_of ({| Property := y; Ascending := asc |} :: l'))
      with (direction_token asc :: y :: tokens_of l').
    cbn [length] in Heven. rewrite mod2_SS in Heven. rewrite (IH l') by done.
    destruct asc; simpl.
    + apply direction_a in Hx. by rewrite Hx.
    + apply direction_d in Hx. by rewrite Hx.
Qed.

(** Where there are no pairs, a direction is no direction. *)
Lemma parse_pairs_None (tokens : list string) :
  parse_pairs tokens = None →
  ∃ (k : nat) (orderOption : string),
    tokens !! (2 * k) = Some orderOption ∧
    orderOption ≠ "a" ∧ orderOption ≠ "d".
Proof.
  induction tokens as [| x | x y rest IH] using pairs_ind; intros Hnone;
    cbn [parse_pairs] in Hnone; [discriminate | discriminate |].
  destruct (direction x) as [asc|] eqn:Hx.
  - destruct (parse_pairs rest) as [l|]; [discriminate|].
    destruct (IH eq_refl) as (k & d & Hd & Hbad). exists (S k), d.
    by replace (2 * S k) with (S (S (2 * k))) by lia.
  - exists 0, x. split; [done|]. by apply direction_None.
Qed.

(** The pairs of two lists put end to end, the first of even length. *)
Lemma parse_pairs_app (tokens1 tokens2 : list string) :
  length tokens1 mod 2 = 0 →
  parse_pairs (tokens1 ++ tokens2)
  = match parse_pairs tokens1, parse_pairs tokens2 with
    | Some l1, Some l2 => Some (l1 ++ l2)
    | _, _ => None
    end.
Proof.
  induction tokens1 as [| x | x y rest IH] using pairs_ind; intros Heven.
  - simpl. by destruct (parse_pairs tokens2).
  - discriminate Heven.
  - change ((x :: y :: rest) ++ tokens2) with (x :: y :: (rest ++ tokens2)).
    cbn [parse_pairs]. cbn [length] in Heven. rewrite mod2_SS in Heven.
    rewrite IH by done.
    destruct (direction x); [|done].
    by destruct (parse_pairs rest), (parse_pairs tokens2).
Qed.

(** A run that returns another pointer than [NoSort] went through the
    whole loop. *)
Lemma NewSortQuery_fresh_inv (g : Globals) (h h' : Heap) (raw : slice string)
    (tokens : list string) (p : ptr SortQuery) :
  contents h raw = Some tokens →
  NewSortQuery g raw h = Some (p, h') →
  p ≠ NoSort g →
  is_nil raw = false ∧ length tokens mod 2 = 0 ∧
  ∃ (l : list SortBy) (a : addr) (q : SortQuery),
    parse_pairs tokens = Some l ∧ p = ref a ∧ length h ≤ a ∧
    h `prefix_of` h' ∧ deref h' p = Some q ∧
    is_nil (SortByList q) = false ∧ contents h' (SortByList q) = Some l.
Proof.
  intros Hraw Hrun Hfresh. pose proof (contents_length _ _ _ Hraw) as Hlen.
  destruct (decide (is_nil raw = true ∨ len raw mod 2 = 1)) as [Hguard|Hpast].
  { rewrite NewSortQuery_guard in Hrun by done. congruence. }
  assert (is_nil raw = false) as Hnil by (destruct (is_nil raw); tauto).
  assert (length tokens mod 2 = 0) as Heven.
  { rewrite Hlen. pose proof (Nat.mod_upper_bound (len raw) 2). lia. }
  split; [done|]. split; [done|].
  pose proof (NewSortQuery_run g raw tokens h Hraw Hnil Heven) as Hrun'.
  destruct (parse_pairs tokens) as [l|].
  - destruct Hrun' as (a & h'' & q & Hrun' & Hpre & Hge & Hq & Hqnil & Hc).
    rewrite Hrun in Hrun'. injection Hrun' as -> ->.
    by exists l, a, q.
  - destruct Hrun' as (h'' & Hrun' & _). congruence.
Qed.

(** X1. Round trip. When [NewSortQuery] returns another pointer than
    [NoSort], the entries of the query spell the token list back: each
    entry's direction code followed by its property name, in order. No
    token is dropped, changed or moved. *)
Theorem NewSortQuery_round_trip (g : Globals) (h h' : Heap)
    (raw : slice string) (tokens : list string) (p : ptr SortQuery)
    (entries : list SortBy) :
  contents h raw = Some tokens →
  NewSortQuery g raw h = Some (p, h') →
  p ≠ NoSort g →
  sort_entries h' p = Some entries →
  tokens_of entries = tokens.
Proof.
  intros Hraw Hrun Hfresh Hentries.
  destruct (NewSortQuery_fresh_inv g h h' raw tokens p Hraw Hrun Hfresh)
    as (_ & Heven & l & a & q & Hl & _ & _ & _ & Hq & _ & Hc).
  rewrite (sort_entries_intro _ _ _ _ Hq Hc) in Hentries.
  injection Hentries as <-. by apply tokens_of_parse_pairs.
Qed.

Lemma NewSortQuery_round_trip_witness :
  tokens_of [ {| Property := "name"; Ascending := true |};
              {| Property := "age"; Ascending := false |} ]
  = ["a"; "name"; "d"; "age"].
Proof.
  eapply (NewSortQuery_round_trip example_globals
            (example_heap ["a"; "name"; "d"; "age"]) _
            (example_raw ["a"; "name"; "d"; "age"])).
  - reflexivity.
  - reflexivity.
  - discriminate.
  - reflexivity.
Defined.

(** X2. The shared [NoSort] pointer is returned exactly for the nil
    slice, for an odd number of tokens, and for a token at an even index
    that is neither "a" nor "d". Every other slice, the empty one that is
    not nil included, gets another pointer. *)
Theorem NewSortQuery_NoSort_iff (env : Imports) (g : Globals) (h : Heap)
    (raw : slice string) (tokens : list string) :
  initialised env g h →
  contents h raw = Some tokens →
  ∃ (p : ptr SortQuery) (h' : Heap),
    NewSortQuery g raw h = Some (p, h') ∧
    (p = NoSort g ↔
     is_nil raw = true ∨ len raw mod 2 = 1 ∨
     ∃ (k : nat) (orderOption : string),
       tokens !! (2 * k) = Some orderOption ∧
       orderOption ≠ "a" ∧ orderOption ≠ "d").
Proof.
  intros Hinit Hraw. pose proof (contents_length _ _ _ Hraw) as Hlen.
  destruct (initialised_NoSort _ _ _ Hinit) as (n & _ & Hn & Hnlt & _).
  destruct (decide (is_nil raw = true ∨ len raw mod 2 = 1)) as [Hguard|Hpast].
  { exists (NoSort g), h. rewrite NewSortQuery_guard by done.
    split; [done|]. split; [tauto | done]. }
  assert (is_nil raw = false) as Hnil by (destruct (is_nil raw); tauto).
  assert (length tokens mod 2 = 0) as Heven.
  { rewrite Hlen. pose proof (Nat.mod_upper_bound (len raw) 2). lia. }
  pose proof (NewSortQuery_run g raw tokens h Hraw Hnil Heven) as Hrun.
  destruct (parse_pairs tokens) as [l|] eqn:Hl.
  - destruct Hrun as (a & h' & q & Hrun & _ & Hge & _).
    exists (ref a), h'. split; [done|]. split.
    + rewrite Hn. intros [= ->]. lia.
    + intros [Hnil' | [Hodd | (k & d & Hd & Ha & Hnd)]]; [congruence | tauto |].
      pose proof (lookup_lt_Some _ _ _ Hd) as Hlt.
      rewrite (parse_pairs_bad tokens k d Hd) in Hl; [discriminate | |].
      * pose proof (Nat.div_mod_eq (length tokens) 2). lia.
      * by apply direction_None.
  - destruct Hrun as (h' & Hrun & _). exists (NoSort g), h'.
    split; [done|]. split; [|done]. intros _. right. right.
    by apply parse_pairs_None.
Qed.

Lemma NewSortQuery_NoSort_iff_witness :
  let tokens := ["d"; "age"; "a"; ""] in
  ∃ (p : ptr SortQuery) (h' : Heap),
    NewSortQuery example_globals (example_raw tokens) (example_heap tokens)
    = Some (p, h') ∧
    (p = NoSort example_globals ↔
     is_nil (example_raw tokens) = true ∨ len (example_raw tokens) mod 2 = 1 ∨
     ∃ (k : nat) (orderOption : string),
       tokens !! (2 * k) = Some orderOption ∧
       orderOption ≠ "a" ∧ orderOption ≠ "d").
Proof.
  intros tokens.
  apply (NewSortQuery_NoSort_iff example_env example_globals
           (example_heap tokens) (example_raw tokens) tokens).
  - eexists example_boot, _. split; [reflexivity|]. by apply prefix_app_r.
  - reflexivity.
Defined.

(** X3. Composition. When two token slices each parse to a query of their
    own, a slice holding the tokens of the first followed by the tokens
    of the second parses to the entries of the first followed by the
    entries of the second: later pairs are lower sort keys and leave the
    earlier ones as they are. *)
Theorem NewSortQuery_app (g : Globals) (h h1 h2 : Heap)
    (raw1 raw2 raw : slice string) (tokens1 tokens2 : list string)
    (p1 p2 : ptr SortQuery) (entries1 entries2 : list SortBy) :
  contents h raw1 = Some tokens1 →
  contents h raw2 = Some tokens2 →
  contents h raw = Some (tokens1 ++ tokens2) →
  is_nil raw = false →
  NewSortQuery g raw1 h = Some (p1, h1) → p1 ≠ NoSort g →
  NewSortQuery g raw2 h = Some (p2, h2) → p2 ≠ NoSort g →
  sort_entries h1 p1 = Some entries1 →
  sort_entries h2 p2 = Some entries2 →
  ∃ (p : ptr SortQuery) (h' : Heap),
    NewSortQuery g raw h = Some (p, h') ∧
    sort_entries h' p = Some (entries1 ++ entries2).
Proof.
  intros Hraw1 Hraw2 Hraw Hnil Hrun1 Hfresh1 Hrun2 Hfresh2 He1 He2.
  destruct (NewSortQuery_fresh_inv g h h1 raw1 tokens1 p1 Hraw1 Hrun1 Hfresh1)
    as (_ & Heven1 & l1 & a1 & q1 & Hl1 & _ & _ & _ & Hq1 & _ & Hc1).
  destruct (NewSortQuery_fresh_inv g h h2 raw2 tokens2 p2 Hraw2 Hrun2 Hfresh2)
    as (_ & Heven2 & l2 & a2 & q2 & Hl2 & _ & _ & _ & Hq2 & _ & Hc2).
  rewrite (sort_entries_intro _ _ _ _ Hq1 Hc1) in He1. injection He1 as <-.
  rewrite (sort_entries_intro _ _ _ _ Hq2 Hc2) in He2. injection He2 as <-.
  assert (length (tokens1 ++ tokens2) mod 2 = 0) as Heven.
  { rewrite length_app, Nat.Div0.add_mod, Heven1, Heven2. done. }
  pose proof (NewSortQuery_run g raw _ h Hraw Hnil Heven) as Hrun.
  rewrite (parse_pairs_app _ _ Heven1), Hl1, Hl2 in Hrun.
  destruct Hrun as (a & h' & q & Hrun & _ & _ & Hq & _ & Hc).
  exists (ref a), h'. split; [done|]. by apply (sort_entries_intro _ _ q).
Qed.

Lemma NewSortQuery_app_witness :
  let tokens := ["a"; "name"; "d"; "age"] in
  ∃ (p : ptr SortQuery) (h' : Heap),
    NewSortQuery example_globals (slice_of 12 0 4) (example_heap tokens)
    = Some (p, h') ∧
    sort_entries h' p
    = Some ([ {| Property := "name"; Ascending := true |} ] ++
            [ {| Property := "age"; Ascending := false |} ]).
Proof.
  intros tokens.
  eapply (NewSortQuery_app example_globals (example_heap tokens) _ _
            (slice_of 12 0 2) (slice_of 12 2 2) (slice_of 12 0 4)
            ["a"; "name"] ["d"; "age"]).
  - reflexivity.
  - reflexivity.
  - reflexivity.
  - reflexivity.
  - reflexivity.
  - discriminate.
  - reflexivity.
  - discriminate.
  - reflexivity.
  - reflexivity.
Defined.

(** X4. The [SortByList] of the query [NewSortQuery] returns is never the
    nil slice: not for the nil token slice, not for a rejected one, not
    for the empty one. *)
Theorem NewSortQuery_list_not_nil (env : Imports) (g : Globals) (h : Heap)
    (raw : slice string) (tokens : list string) :
  initialised env g h →
  contents h raw = Some tokens →
  ∃ (p : ptr SortQuery) (h' : Heap) (q : SortQuery),
    NewSortQuery g raw h = Some (p, h') ∧
    deref h' p = Some q ∧
    is_nil (SortByList q) = false.
Proof.
  intros Hinit Hraw. pose proof (contents_length _ _ _ Hraw) as Hlen.
  destruct (decide (is_nil raw = true ∨ len raw mod 2 = 1)) as [Hguard|Hpast].
  { destruct (initialised_NoSort _ _ _ Hinit) as (_ & q & _ & _ & Hq & Hqnil & _).
    exists (NoSort g), h, q. by rewrite NewSortQuery_guard. }
  assert (is_nil raw = false) as Hnil by (destruct (is_nil raw); tauto).
  assert (length tokens mod 2 = 0) as Heven.
  { rewrite Hlen. pose proof (Nat.mod_upper_bound (len raw) 2). lia. }
  pose proof (NewSortQuery_run g raw tokens h Hraw Hnil Heven) as Hrun.
  destruct (parse_pairs tokens) as [l|].
  - destruct Hrun as (a & h' & q & Hrun & _ & _ & Hq & Hqnil & _).
    by exists (ref a), h', q.
  - destruct Hrun as (h' & Hrun & Hpre).
    destruct (initialised_NoSort env g h' (initialised_prefix _ _ _ _ Hinit Hpre))
      as (_ & q & _ & _ & Hq & Hqnil & _).
    by exists (NoSort g), h', q.
Qed.

Lemma NewSortQuery_list_not_nil_witness :
  ∃ (p : ptr SortQuery) (h' : Heap) (q : SortQuery),
    NewSortQuery example_globals nil_slice (example_heap []) = Some (p, h') ∧
    deref h' p = Some q ∧
    is_nil (SortByList q) = false.
Proof.
  apply (NewSortQuery_list_not_nil example_env example_globals
           (example_heap []) nil_slice []).
  - eexists example_boot, _. split; [reflexivity|]. by apply prefix_app_r.
  - reflexivity.
Defined.

(** X5. Two calls in a row on the same well-formed token slice return
    two different pointers, and after the second call both queries are
    there with the same entries: a parsed query is a new object each
    time, shared with no earlier result. *)
Theorem NewSortQuery_twice (g : Globals) (h : Heap) (raw : slice string)
    (tokens : list string) :
  is_nil raw = false →
  contents h raw = Some tokens →
  length tokens mod 2 = 0 →
  (∀ k orderOption, tokens !! (2 * k) = Some orderOption →
                    orderOption = "a" ∨ orderOption = "d") →
  ∃ (p1 p2 : ptr SortQuery) (h2 : Heap) (entries : list SortBy),
    (p1 ← NewSortQuery g raw; p2 ← NewSortQuery g raw; mret (p1, p2)) h
    = Some ((p1, p2), h2) ∧
    p1 ≠ p2 ∧
    sort_entries h2 p1 = Some entries ∧
    sort_entries h2 p2 = Some entries ∧
    2 * length entries = length tokens.
Proof.
  intros Hnil Hraw Heven Hdir.
  destruct (parse_pairs_good tokens Hdir) as [l Hl].
  pose proof (NewSortQuery_run g raw tokens h Hraw Hnil Heven) as Hrun1.
  rewrite Hl in Hrun1.
  destruct Hrun1 as (a1 & h1 & q1 & Hrun1 & Hpre1 & _ & Hq1 & _ & Hc1).
  pose proof (contents_prefix _ _ _ _ Hpre1 Hraw) as Hraw1.
  pose proof (NewSortQuery_run g raw tokens h1 Hraw1 Hnil Heven) as Hrun2.
  rewrite Hl in Hrun2.
  destruct Hrun2 as (a2 & h2 & q2 & Hrun2 & Hpre2 & Hge2 & Hq2 & _ & Hc2).
  exists (ref a1), (ref a2), h2, l.
  unfold mbind, M_bind. rewrite Hrun1, Hrun2. split; [done|]. split.
  { pose proof (deref_lt _ _ _ Hq1). intros [= ->]. lia. }
  split.
  { apply (sort_entries_intro _ _ q1); [by eapply deref_prefix|].
    by eapply contents_prefix. }
  split; [by apply (sort_entries_intro _ _ q2)|].
  destruct (parse_pairs_Some tokens l Hl) as [Hlen _]. rewrite Hlen.
  pose proof (Nat.div_mod_eq (length tokens) 2). lia.
Qed.

Lemma NewSortQuery_twice_witness :
  let tokens := ["d"; "age"] in
  ∃ (p1 p2 : ptr SortQuery) (h2 : Heap) (entries : list SortBy),
    (p1 ← NewSortQuery example_globals (example_raw tokens);
     p2 ← NewSortQuery example_globals (example_raw tokens);
     mret (p1, p2)) (example_heap tokens)
    = Some ((p1, p2), h2) ∧
    p1 ≠ p2 ∧
    sort_entries h2 p1 = Some entries ∧
    sort_entries h2 p2 = Some entries ∧
    2 * length entries = length tokens.
Proof.
  intros tokens.
  apply (NewSortQuery_twice example_globals (example_heap tokens)
           (example_raw tokens) tokens).
  - reflexivity.
  - reflexivity.
  - reflexivity.
  - intros [|k] orderOption Hk.
    + right. by injection Hk as <-.
    + replace (2 * S k) with (2 + 2 * k) in Hk by lia. discriminate Hk.
Defined.
